(** * GDrive-with-python: authorization and upload (Upload.py)

    A shallow embedding of the two functions of [Upload.py]:
    [authorization], which loads, refreshes or regenerates the cached
    OAuth2 credential, and [upload], which finds or creates the target
    folder, reconciles its sharing permissions and uploads one file.

    The Google client objects are the environment of the program.  They
    are represented by a world that answers every request and records
    it, so that statements about "what the program asks the remote to
    do" are statements about the recorded requests. *)

From Stdlib Require Import String Ascii List Arith ZArith Bool Lia.
From Stdlib Require Strings.Byte.
Import ListNotations.
Local Open Scope list_scope.
Local Open Scope string_scope.

(* ===================================================================== *)
(** * Python values used by the scripts *)
(* ===================================================================== *)

Section PyStrings.

(** [s[n:]] for a non-negative [n]. *)
Fixpoint str_drop (n : nat) (s : string) : string :=
  match n, s with
  | O, _ => s
  | S _, EmptyString => EmptyString
  | S n', String _ s' => str_drop n' s'
  end.

(** [s[:n]] for a non-negative [n]. *)
Fixpoint str_take (n : nat) (s : string) : string :=
  match n, s with
  | O, _ => EmptyString
  | S _, EmptyString => EmptyString
  | S n', String c s' => String c (str_take n' s')
  end.

(** [s[-n:]] for a positive literal [n]: the start index [len(s) - n]
    is clamped at 0, which is what the truncated subtraction does. *)
Definition slice_last (n : nat) (s : string) : string :=
  str_drop (String.length s - n) s.

(** [s[:-n]] for a positive literal [n]: the stop index is clamped
    at 0 in the same way. *)
Definition slice_but_last (n : nat) (s : string) : string :=
  str_take (String.length s - n) s.

(** Truthiness of a value that is [None] or a [str]. *)
Definition truthy (v : option string) : bool :=
  match v with
  | None => false
  | Some s => negb (s =? "")
  end.

(** [a == b] where [a] is a [str] and [b] is [None] or a [str]. *)
Definition py_eq (a : string) (b : option string) : bool :=
  match b with
  | None => false
  | Some s => a =? s
  end.

(** The property "the name ends in [t]". *)
Definition ends_with (t s : string) : Prop := exists p, s = p ++ t.

End PyStrings.

(* ===================================================================== *)
(** * Mime type of the uploaded file (Upload.py, lines 118-125) *)
(* ===================================================================== *)

Definition file_mime (file_name : string) : string :=
  if slice_last 4 file_name =? ".wav" then "audio / wav"
  else if slice_last 4 file_name =? ".mp3" then "audio / mpeg"
  else if slice_last 5 file_name =? ".flac" then "audio / flac"
  else "image / jpeg".

(** The family of a mime string is what precedes the slash. *)
Definition is_audio (m : string) : bool := String.prefix "audio" m.
Definition is_image (m : string) : bool := String.prefix "image" m.

(* ===================================================================== *)
(** * [str(datetime.datetime.now())] *)
(* ===================================================================== *)

(** A naive [datetime] value.  The fields are range-checked by Python
    (month below 13, microsecond below 10^6, and so on). *)
Record datetime : Type := mkDatetime {
  year : N; month : N; day : N;
  hour : N; minute : N; second : N;
  microsecond : N
}.

Definition digit (n : N) : ascii := ascii_of_N (48 + n mod 10).

(** The [k] low-order decimal digits of [n], most significant first:
    what ["%0kd" % n] prints for a field that fits in [k] digits. *)
Fixpoint fixed (k : nat) (n : N) : string :=
  match k with
  | O => EmptyString
  | S k' => fixed k' (n / 10) ++ String (digit n) EmptyString
  end.

(** The rendering up to the seconds: [YYYY-MM-DD HH:MM:SS]. *)
Definition str_seconds (d : datetime) : string :=
  fixed 4 (year d) ++ "-" ++ fixed 2 (month d) ++ "-" ++ fixed 2 (day d)
  ++ " " ++ fixed 2 (hour d) ++ ":" ++ fixed 2 (minute d) ++ ":"
  ++ fixed 2 (second d).

(** [datetime.__str__] is [isoformat(sep=' ')]: the fractional part is
    printed only when the microsecond field is not zero. *)
Definition str_datetime (d : datetime) : string :=
  str_seconds d ++
  (if N.eqb (microsecond d) 0 then ""
   else "." ++ fixed 6 (microsecond d)).


(* ===================================================================== *)
(** * Computations with a state that may raise *)
(* ===================================================================== *)

Inductive result (E A : Type) : Type :=
| Ok (a : A)
| Raise (e : E).
Arguments Ok {E A} a.
Arguments Raise {E A} e.

(** A computation reads and changes the state and either returns a
    value or raises; what it did before raising stays done. *)
Definition ST (S E A : Type) : Type := S -> result E A * S.

Definition ret {S E A : Type} (a : A) : ST S E A := fun s => (Ok a, s).

Definition raise {S E A : Type} (e : E) : ST S E A := fun s => (Raise e, s).

Definition bind {S E A B : Type} (c : ST S E A) (k : A -> ST S E B)
  : ST S E B :=
  fun s =>
    match c s with
    | (Ok a, s') => k a s'
    | (Raise e, s') => (Raise e, s')
    end.

Notation "x <- c ;; k" := (bind c (fun x => k))
  (at level 61, c at next level, right associativity).
Notation "c ;;; k" := (bind c (fun _ => k))
  (at level 61, right associativity).

(* ===================================================================== *)
(** * The remote drive and the requests sent to it *)
(* ===================================================================== *)

(** The folder marker, [mime] in [upload] (line 33). *)
Definition mime : string := "application/vnd.google-apps.folder".

(** The [q] argument of the listing request (line 38). *)
Definition folder_query : string :=
  "mimeType='application/vnd.google-apps.folder'".

(** An element of [perm['permissions']], requested with
    [fields='permissions(emailAddress, role)'].  The remote leaves the
    [emailAddress] key out for grants that are not made to an address;
    [None] stands for the missing key. *)
Record Permission : Type := mkPermission {
  emailAddress : option string;
  role : string
}.

(** A resource as the remote holds it. *)
Record RemoteFile : Type := mkRemoteFile {
  rf_id : string;
  rf_name : string;
  rf_mimeType : string;
  rf_permissions : list Permission
}.

(** An element of [response['files']], requested with
    [fields='nextPageToken, files(id, name)']. *)
Record FileEntry : Type := mkFileEntry {
  entry_id : string;
  entry_name : string
}.

Record ListResponse : Type := mkListResponse {
  files : list FileEntry;
  nextPageToken : option nat
}.

(** The [permission_body] dictionaries of lines 64, 75, 99 and 106. *)
Record PermissionBody : Type := mkPermissionBody {
  pb_kind : string;
  pb_type : string;
  pb_emailAddress : option string;
  pb_role : option string
}.

(** The calls of the Drive v3 client that concern files and permissions.
    [upload] issues the first five; the last two are the calls that
    change or remove an existing grant. *)
Inductive Request : Type :=
| FilesList (q : string) (pageToken : option nat)
| PermissionsList (fileId : string)
| FilesCreate (name mimeType : string)
| PermissionsCreate (fileId : string) (body : PermissionBody)
| FilesCreateMedia (name : string) (parents : list string) (mimetype : string)
| PermissionsUpdate (fileId permissionId : string) (new_role : string)
| PermissionsDelete (fileId permissionId : string).

(** What the program can observe of its environment: the content of the
    drive, the page length of listings, the ids the remote hands out,
    the readings of the local clock, and the requests sent so far.
    Every request is answered; transport failures are not represented. *)
Record World : Type := mkWorld {
  drive_files : list RemoteFile;
  page_size : nat;
  mint : nat -> string;
  created : nat;
  clock : nat -> datetime;
  ticks : nat;
  log : list Request
}.

Inductive exn : Type :=
| KeyError (key : string)
| HttpError (status : nat).

(** Computations of [upload]. *)
Definition M (A : Type) : Type := ST World exn A.

Definition record (r : Request) (w : World) : World :=
  mkWorld (drive_files w) (page_size w) (mint w) (created w)
          (clock w) (ticks w) (log w ++ [r])%list.

Definition entry_of (f : RemoteFile) : FileEntry :=
  mkFileEntry (rf_id f) (rf_name f).

(** The folders of the drive, in the order the remote lists them. *)
Definition folder_listing (w : World) : list RemoteFile :=
  filter (fun f => rf_mimeType f =? mime) (drive_files w).

(** The remote's answer to a listing of folders: one page, and the
    token of the next page when entries remain. *)
Definition list_page (pageToken : option nat) (w : World) : ListResponse :=
  let start := match pageToken with None => 0 | Some k => k end in
  let rest := skipn start (folder_listing w) in
  mkListResponse
    (map entry_of (firstn (page_size w) rest))
    (if Nat.leb (length rest) (page_size w) then None
     else Some (start + page_size w)).

(** [service.files().list(q=..., pageToken=...).execute()] *)
Definition files_list (pageToken : option nat) : M ListResponse :=
  fun w => (Ok (list_page pageToken w),
            record (FilesList folder_query pageToken) w).

(** [service.permissions().list(fileId=...).execute()['permissions']] *)
Definition permissions_list (fileId : string) : M (list Permission) :=
  fun w =>
    match find (fun f => rf_id f =? fileId) (drive_files w) with
    | Some f => (Ok (rf_permissions f), record (PermissionsList fileId) w)
    | None => (Raise (HttpError 404), record (PermissionsList fileId) w)
    end.

(** [service.files().create(body={name, mimeType}, fields='id')
    .execute().get('id')] *)
Definition files_create (name mimeType : string) : M string :=
  fun w =>
    (Ok (mint w (created w)),
     mkWorld (drive_files w) (page_size w) (mint w) (S (created w))
             (clock w) (ticks w) (log w ++ [FilesCreate name mimeType])%list).

(** [service.permissions().create(fileId=..., body=...).execute()] *)
Definition permissions_create (fileId : string) (body : PermissionBody)
  : M unit :=
  fun w => (Ok tt, record (PermissionsCreate fileId body) w).

(** [service.files().create(body={name, parents}, media_body=..., 
    fields='id').execute()] *)
Definition files_create_media (name : string) (parents : list string)
    (mimetype : string) : M unit :=
  fun w => (Ok tt, record (FilesCreateMedia name parents mimetype) w).

(** [datetime.datetime.now()] *)
Definition datetime_now : M datetime :=
  fun w =>
    (Ok (clock w (ticks w)),
     mkWorld (drive_files w) (page_size w) (mint w) (created w)
             (clock w) (S (ticks w)) (log w)).

(* ===================================================================== *)
(** * [upload] (Upload.py, lines 32-135) *)
(* ===================================================================== *)

Section Upload.

Variables (folder_name file_name : string).
Variables (user_email access : option string).

Definition permission_body : PermissionBody :=
  mkPermissionBody "drive#permission" "user" user_email access.

(** Lines 42-51: the loop over [response.get('files', [])], left by
    [break] at the first entry named [folder_name].  It yields
    [folder_identifier] and [shared_users]; the latter is only bound
    when an entry was found. *)
Fixpoint scan (entries : list FileEntry)
  : M (option string * list Permission) :=
  match entries with
  | [] => ret (None, [])
  | file :: rest =>
      if entry_name file =? folder_name then
        perm <- permissions_list (entry_id file) ;;
        ret (Some (entry_id file),
             filter (fun i => negb (role i =? "owner")) perm)
      else scan rest
  end.

(** Lines 35-51. *)
Definition lookup : M (option string * list Permission) :=
  response <- files_list None ;;
  scan (files response).

(** Lines 86-110: the body of the loop over [shared_users]. *)
Definition reconcile_entry (folder_identifier : string) (user : Permission)
  : M string :=
  match emailAddress user with
  | None => raise (KeyError "emailAddress")
  | Some address =>
      if py_eq address user_email && py_eq (role user) access then
        ret folder_identifier
      else if py_eq address user_email && negb (py_eq (role user) access)
      then
        now <- datetime_now ;;
        let suffix := str_datetime now in
        folder <- files_create
                    (folder_name ++ " " ++ slice_but_last 7 suffix) mime ;;
        permissions_create folder permission_body ;;;
        ret folder
      else
        permissions_create folder_identifier permission_body ;;;
        ret folder_identifier
  end.

(** Line 85: [for user in shared_users]. *)
Fixpoint reconcile (folder_identifier : string)
    (shared_users : list Permission) : M string :=
  match shared_users with
  | [] => ret folder_identifier
  | user :: rest =>
      folder_identifier' <- reconcile_entry folder_identifier user ;;
      reconcile folder_identifier' rest
  end.

(** Lines 54-68: no folder was found. *)
Definition create_folder : M string :=
  folder <- files_create folder_name mime ;;
  (if truthy user_email && truthy access
   then permissions_create folder permission_body
   else ret tt) ;;;
  ret folder.

(** Lines 70-110: a folder was found. *)
Definition share_folder (folder_identifier : string)
    (shared_users : list Permission) : M string :=
  match shared_users with
  | [] =>
      (if truthy user_email && truthy access
       then permissions_create folder_identifier permission_body
       else ret tt) ;;;
      ret folder_identifier
  | _ :: _ => reconcile folder_identifier shared_users
  end.

Definition upload : M unit :=
  found <- lookup ;;
  parent <-
    (if negb (truthy (fst found)) then create_folder
     else match fst found with
          | Some folder_identifier =>
              share_folder folder_identifier (snd found)
          | None => create_folder
          end) ;;
  files_create_media file_name [parent] (file_mime file_name).

End Upload.

(** The requests sent between two states of the world. *)
Definition issued (w w' : World) : list Request :=
  skipn (length (log w)) (log w').

(* ===================================================================== *)
(** * [authorization] (Upload.py, lines 10-29) *)
(* ===================================================================== *)

(** What the script reads of a [google.oauth2.credentials.Credentials]
    object. *)
Record Credentials : Type := mkCredentials {
  token : option string;
  refresh_token : option string;
  expiry : option Z
}.

(** [creds.expired]: an expiry is set and has been reached. *)
Definition expired (now : Z) (creds : Credentials) : bool :=
  match expiry creds with
  | None => false
  | Some t => (t <=? now)%Z
  end.

(** [creds.valid]: there is an access token and it is not expired. *)
Definition valid (now : Z) (creds : Credentials) : bool :=
  match token creds with
  | None => false
  | Some _ => negb (expired now creds)
  end.

(** The object returned by [build]. *)
Record Resource : Type := mkResource {
  serviceName : string;
  version : string;
  credentials : Credentials
}.

(** The steps of [authorization] that reach outside the process. *)
Inductive AuthEvent : Type :=
| Refresh (creds : Credentials)
| RunLocalServer (client_secret_file : string) (scope : list string)
| Dump (data : list Byte.byte)
| Build (service : Resource).

(** The machine the script runs on and the identity provider behind it:
    the content of [token.pickle] ([None] when the file does not exist),
    the current time, the provider's answer to a refresh (a new access
    token and its expiry, or [None] when it refuses), the credential an
    interactive authorization ends with ([None] when it fails), and the
    steps taken so far. *)
Record Host : Type := mkHost {
  token_pickle : option (list Byte.byte);
  utcnow : Z;
  refresh_grant : option (string * Z);
  consent : option Credentials;
  events : list AuthEvent
}.

Inductive auth_exn : Type :=
| UnpicklingError
| RefreshError
| FlowError.

Definition note (e : AuthEvent) (h : Host) : Host :=
  mkHost (token_pickle h) (utcnow h) (refresh_grant h) (consent h)
         (events h ++ [e])%list.

Section Authorization.

(** [pickle.load] and [pickle.dump] on a credential; a blob that
    does not unpickle makes [pickle.load] raise. *)
Variable pickle_loads : list Byte.byte -> option Credentials.
Variable pickle_dumps : Credentials -> list Byte.byte.

Variables (client_secret_file api_name api_version : string).
Variable (scope : list string).

(** Lines 11-16. *)
Definition load_token : ST Host auth_exn (option Credentials) :=
  fun h =>
    match token_pickle h with
    | None => (Ok None, h)
    | Some data =>
        match pickle_loads data with
        | Some creds => (Ok (Some creds), h)
        | None => (Raise UnpicklingError, h)
        end
    end.

(** Line 21: [creds.refresh(Request())] updates the object it is
    called on. *)
Definition refresh (creds : Credentials) : ST Host auth_exn Credentials :=
  fun h =>
    match refresh_grant h with
    | Some (access_token, until) =>
        (Ok (mkCredentials (Some access_token) (refresh_token creds)
                           (Some until)),
         note (Refresh creds) h)
    | None => (Raise RefreshError, note (Refresh creds) h)
    end.

(** Lines 23-24. *)
Definition run_local_server : ST Host auth_exn Credentials :=
  fun h =>
    match consent h with
    | Some creds => (Ok creds, note (RunLocalServer client_secret_file scope) h)
    | None => (Raise FlowError, note (RunLocalServer client_secret_file scope) h)
    end.

(** Lines 25-26. *)
Definition dump_token (creds : Credentials) : ST Host auth_exn unit :=
  fun h =>
    (Ok tt,
     mkHost (Some (pickle_dumps creds)) (utcnow h) (refresh_grant h)
            (consent h) (events h ++ [Dump (pickle_dumps creds)])%list).

(** Line 28. *)
Definition build (creds : Credentials) : ST Host auth_exn Resource :=
  fun h =>
    let drive_service := mkResource api_name api_version creds in
    (Ok drive_service, note (Build drive_service) h).

(** Lines 23-26: the [else] branch. *)
Definition generate : ST Host auth_exn Credentials :=
  creds <- run_local_server ;;
  dump_token creds ;;;
  ret creds.

Definition authorization : ST Host auth_exn Resource :=
  loaded <- load_token ;;
  now <- (fun h => (Ok (utcnow h), h)) ;;
  creds <-
    match loaded with
    | None => generate
    | Some creds =>
        if negb (valid now creds) then
          if expired now creds && truthy (refresh_token creds)
          then refresh creds
          else generate
        else ret creds
    end ;;
  build creds.

End Authorization.

(** A sample serialisation used to run [authorization] on concrete
    hosts: the blob holds the access token, and the other two fields
    are fixed. *)
Definition sample_dumps (creds : Credentials) : list Byte.byte :=
  list_byte_of_string (match token creds with Some t => t | None => "" end).

Definition sample_loads (data : list Byte.byte) : option Credentials :=
  Some (mkCredentials (Some (string_of_list_byte data))
                      (Some "1//refresh") (Some 1000%Z)).

(* ===================================================================== *)
(** * Requests sent during a run *)
(* ===================================================================== *)

(** The world after the requests [l] have been sent. *)
Definition extend (l : list Request) (w : World) : World :=
  mkWorld (drive_files w) (page_size w) (mint w) (created w)
          (clock w) (ticks w) (log w ++ l)%list.

(** Requests that change or remove a grant that exists. *)
Definition alters_grant (q : Request) : bool :=
  match q with
  | PermissionsUpdate _ _ _ | PermissionsDelete _ _ => true
  | _ => false
  end.

(** Requests that concern the permissions of the resource [fid]. *)
Definition grants_on (fid : string) (q : Request) : bool :=
  match q with
  | PermissionsCreate f _ | PermissionsUpdate f _ _ | PermissionsDelete f _ =>
      f =? fid
  | _ => false
  end.

(* ===================================================================== *)
(** * The complete listing *)
(* ===================================================================== *)

(** The listing obtained by asking for the first page and then for the
    page of every [nextPageToken] received, until none is. *)
Fixpoint follow_tokens (fuel : nat) (pageToken : option nat) (w : World)
  : list FileEntry :=
  match fuel with
  | O => []
  | S fuel' =>
      let response := list_page pageToken w in
      (files response ++
       match nextPageToken response with
       | None => []
       | Some next => follow_tokens fuel' (Some next) w
       end)%list
  end.

Definition complete_listing (w : World) : list FileEntry :=
  follow_tokens (S (length (folder_listing w))) None w.

(** The id of the first entry of a listing that bears the name. *)
Definition first_named (folder_name : string) (entries : list FileEntry)
  : option string :=
  option_map entry_id
    (find (fun file => entry_name file =? folder_name) entries).

(* ===================================================================== *)
(** * Sample drives *)
(* ===================================================================== *)

Definition owner_grant : Permission :=
  mkPermission (Some "owner@example.com") "owner".

Definition sample_mint (n : nat) : string := "new-" ++ fixed 3 (N.of_nat n).

Definition sample_clock (n : nat) : datetime :=
  mkDatetime 2021 3 7 9 5 (N.of_nat n mod 60) 120034.

Definition drive_with (content : list RemoteFile) : World :=
  mkWorld content 100 sample_mint 0 sample_clock 0 [].

(** A folder named [X], owned by the account and shared as given. *)
Definition folder_X (grants : list Permission) : RemoteFile :=
  mkRemoteFile "id-X" "X" mime (owner_grant :: grants).

Definition numbered_folder (n : nat) : RemoteFile :=
  mkRemoteFile ("id-" ++ fixed 3 (N.of_nat n)) ("dir-" ++ fixed 3 (N.of_nat n))
               mime [owner_grant].

(** A drive with a hundred other folders listed before [X]: the first
    page of a listing, a hundred entries long, does not reach [X]. *)
Definition crowded_drive : World :=
  drive_with (map numbered_folder (seq 0 100) ++ [folder_X []])%list.

Definition alice_reader : Permission :=
  mkPermission (Some "a@example.com") "reader".

Definition bob_reader : Permission :=
  mkPermission (Some "b@example.com") "reader".

Definition carol_writer : Permission :=
  mkPermission (Some "c@example.com") "writer".

(** Drives that hold the folder [X] under various sharings. *)
Definition drive_a : World := drive_with [folder_X [alice_reader]].

Definition drive_ac : World :=
  drive_with [folder_X [alice_reader; carol_writer]].

Definition drive_ba : World :=
  drive_with [folder_X [bob_reader; alice_reader]].

Definition drive_bac : World :=
  drive_with [folder_X [bob_reader; alice_reader; carol_writer]].


(* ===================================================================== *)
(** * Sample hosts *)
(* ===================================================================== *)

Definition sample_scope : list string :=
  ["https://www.googleapis.com/auth/drive"].

(** A host whose token file holds the access token [old]; read with
    [sample_loads] the credential expires at 1000 and has a refresh
    token. *)
Definition host_at (now : Z) (grant : option (string * Z))
    (interactive : option Credentials) : Host :=
  mkHost (Some (list_byte_of_string "old")) now grant interactive [].

Definition fresh_credentials : Credentials :=
  mkCredentials (Some "fresh") (Some "1//other") (Some 9000%Z).

(** The credential [sample_loads] reads from the sample hosts. *)
Definition old_credentials : Credentials :=
  mkCredentials (Some "old") (Some "1//refresh") (Some 1000%Z).

(** Before the expiry. *)
Definition valid_host : Host := host_at 500 None None.

(** After the expiry, with a provider that grants the refresh. *)
Definition stale_host : Host := host_at 2000 (Some ("new", 5600%Z)) None.

(** After the expiry, with a provider that refuses the refresh and a
    user who would complete the interactive flow. *)
Definition revoked_host : Host := host_at 2000 None (Some fresh_credentials).

Definition sample_authorization : ST Host auth_exn Resource :=
  authorization sample_loads sample_dumps
                "client_secret.json" "drive" "v3" sample_scope.


(* ===================================================================== *)
(** * Kinds of requests and of entries *)
(* ===================================================================== *)

Definition is_listing (q : Request) : bool :=
  match q with FilesList _ _ => true | _ => false end.

Definition is_media (q : Request) : bool :=
  match q with FilesCreateMedia _ _ _ => true | _ => false end.

Definition is_folder_create (q : Request) : bool :=
  match q with FilesCreate _ _ => true | _ => false end.

Definition is_permission_create (q : Request) : bool :=
  match q with PermissionsCreate _ _ => true | _ => false end.

(** The requests sent between the listing and the upload of the file. *)
Definition is_setup (q : Request) : bool :=
  match q with
  | PermissionsList _ | FilesCreate _ _ | PermissionsCreate _ _ => true
  | _ => false
  end.

(** The number of elements of [l] that satisfy [p]. *)
Definition count {A : Type} (p : A -> bool) (l : list A) : nat :=
  length (filter p l).

(** An entry that carries the requested address and the requested role
    (the test of line 87). *)
Definition same_share (user_email access : option string) (u : Permission)
  : bool :=
  match emailAddress u with
  | Some address => py_eq address user_email && py_eq (role u) access
  | None => false
  end.

(** An entry that carries the requested address and another role (the
    test of line 91). *)
Definition other_role (user_email access : option string) (u : Permission)
  : bool :=
  match emailAddress u with
  | Some address => py_eq address user_email && negb (py_eq (role u) access)
  | None => false
  end.

(** [w'] is [w] after some requests that all satisfy [P], with the same
    source of ids. *)
Definition appends (P : Request -> bool) (w w' : World) : Prop :=
  exists l, log w' = (log w ++ l)%list /\ forallb P l = true.

(** A computation that, whatever it returns, only sends requests that
    satisfy [P]. *)
Definition only_sends {A : Type} (P : Request -> bool) (c : M A) : Prop :=
  forall w, appends P w (snd (c w)).

(** Between [w] and [w'] the current folder went from [fid] to [fid']:
    it is the folder created last in between, or still [fid] when none
    was created; the ids come from the remote, in the order of the
    creations. *)
Definition resolves (fid : string) (w : World) (fid' : string) (w' : World)
  : Prop :=
  exists reqs,
    log w' = (log w ++ reqs)%list /\
    mint w' = mint w /\
    created w' = created w + count is_folder_create reqs /\
    fid' = match count is_folder_create reqs with
           | O => fid
           | S k => mint w (created w + k)
           end.

(* ===================================================================== *)
(** * Kinds of steps of [authorization] *)
(* ===================================================================== *)

Definition is_refresh (e : AuthEvent) : bool :=
  match e with Refresh _ => true | _ => false end.

Definition is_flow (e : AuthEvent) : bool :=
  match e with RunLocalServer _ _ => true | _ => false end.

Definition is_dump (e : AuthEvent) : bool :=
  match e with Dump _ => true | _ => false end.

(** The steps taken between two states of the host. *)
Definition taken (h h' : Host) : list AuthEvent :=
  skipn (length (events h)) (events h').

(** A host without a token file, at time 500, where the interactive
    flow ends with [old_credentials]. *)
Definition new_host : Host := mkHost None 500 None (Some old_credentials) [].

(** A host whose stored credential has expired and cannot be
    refreshed by the script, for lack of a refresh token in it. *)
Definition plain_loads (data : list Byte.byte) : option Credentials :=
  Some (mkCredentials (Some (string_of_list_byte data)) None (Some 1000%Z)).

(** A host whose token file does not unpickle. *)
Definition no_loads (data : list Byte.byte) : option Credentials := None.

(* ===================================================================== *)
(** * More sample drives and hosts *)
(* ===================================================================== *)

(** A grant made to anyone with the link: it has no address. *)
Definition anyone_reader : Permission := mkPermission None "reader".

Definition drive_unshared : World := drive_with [folder_X []].

Definition drive_b_anyone_a : World :=
  drive_with [folder_X [bob_reader; anyone_reader; alice_reader]].

(** A clock that reads whole seconds. *)
Definition whole_clock (n : nat) : datetime :=
  mkDatetime 2021 3 7 19 5 (N.of_nat n mod 60) 0.

Definition drive_on_whole_second : World :=
  mkWorld [folder_X [alice_reader]] 100 sample_mint 0 whole_clock 0 [].

(** A host without a token file where the interactive flow fails. *)
Definition silent_host : Host := mkHost None 500 None None [].

(* ===================================================================== *)
(** * The test scripts (Upload_test.py, OAuth2_test.py) *)
(* ===================================================================== *)

(** The test scripts authorize, talk to the drive and print.  Their
    state is the host, the drive and the lines printed so far. *)
Record Machine : Type := mkMachine {
  host : Host;
  drive : World;
  stdout : list string
}.

Inductive failure : Type :=
| AuthFailure (e : auth_exn)
| DriveFailure (e : exn).

Definition on_host {A : Type} (c : ST Host auth_exn A)
  : ST Machine failure A :=
  fun m =>
    match c (host m) with
    | (Ok a, h') => (Ok a, mkMachine h' (drive m) (stdout m))
    | (Raise e, h') =>
        (Raise (AuthFailure e), mkMachine h' (drive m) (stdout m))
    end.

Definition on_drive {A : Type} (c : ST World exn A)
  : ST Machine failure A :=
  fun m =>
    match c (drive m) with
    | (Ok a, w') => (Ok a, mkMachine (host m) w' (stdout m))
    | (Raise e, w') =>
        (Raise (DriveFailure e), mkMachine (host m) w' (stdout m))
    end.

(** [print(line)] *)
Definition print (line : string) : ST Machine failure unit :=
  fun m => (Ok tt, mkMachine (host m) (drive m) (stdout m ++ [line])%list).

Module UploadTest.

(** Upload_test.py, lines 99-130. *)
Definition create_folder (name : string) : ST Machine failure string :=
  folder <- on_drive (files_create name mime) ;;
  on_drive (permissions_create folder
              (mkPermissionBody "drive#permission" "user"
                                (Some "mikolaj.telec@gmail.com")
                                (Some "reader"))) ;;;
  print "Folder created!" ;;;
  ret folder.

(** Upload_test.py, lines 168-197. *)
Definition upload_file (file_name file_mime dir_id : string)
  : ST Machine failure unit :=
  on_drive (files_create_media file_name [dir_id] file_mime) ;;;
  print "Upload finished!" ;;;
  ret tt.

End UploadTest.

Module OAuth2Test.

(** OAuth2_test.py, line 35. *)
Definition SCOPES : list string :=
  ["https://www.googleapis.com/auth/drive.metadata.readonly"].

(** Lines 60-62: [service.files().list(pageSize=10, fields=...)
    .execute().get('files', [])].  The remote answers with the first
    entries of the drive, at most [pageSize] of them; the record of
    requests keeps the call without its page size. *)
Definition files_list_page (pageSize : nat) : ST World exn (list FileEntry) :=
  fun w =>
    (Ok (map entry_of (firstn pageSize (drive_files w))),
     record (FilesList "" None) w).

(** Lines 70-71. *)
Fixpoint print_each (items : list FileEntry) : ST Machine failure unit :=
  match items with
  | [] => ret tt
  | item :: rest =>
      print (entry_name item ++ "  ::::   " ++ entry_id item) ;;;
      print_each rest
  end.

(** Lines 66-71. *)
Definition print_items (items : list FileEntry) : ST Machine failure unit :=
  match items with
  | [] => print "No files found"
  | _ :: _ => print "Files:" ;;; print_each items
  end.

Section Script.

Variable pickle_loads : list Byte.byte -> option Credentials.
Variable pickle_dumps : Credentials -> list Byte.byte.

(** Lines 39-56. *)
Definition obtain_credentials : ST Machine failure Credentials :=
  loaded <- on_host (load_token pickle_loads) ;;
  now <- (fun m => (Ok (utcnow (host m)), m)) ;;
  match loaded with
  | None => on_host (generate pickle_dumps "credentials.json" SCOPES)
  | Some creds =>
      if negb (valid now creds) then
        if expired now creds && truthy (refresh_token creds)
        then print "Credential refreshed !!!" ;;;
             on_host (refresh creds)
        else on_host (generate pickle_dumps "credentials.json" SCOPES)
      else ret creds
  end.

(** Lines 38-71. *)
Definition auth2_test : ST Machine failure unit :=
  creds <- obtain_credentials ;;
  service <- on_host (build "drive" "v3" creds) ;;
  items <- on_drive (files_list_page 10) ;;
  print_items items.

End Script.

End OAuth2Test.

(** A machine for the test scripts: a host, a drive, nothing printed. *)
Definition machine_of (h : Host) (w : World) : Machine := mkMachine h w [].

(* ===================================================================== *)
(** * The loop as the specification words it *)
(* ===================================================================== *)

(** "For each existing permission entry, in listing order": the step is
    applied to the entries from the first to the last, each time from
    the folder the steps before it ended with; nothing is skipped and
    nothing stops the iteration but a step that raises. *)
Definition for_each_in_order (step : string -> Permission -> M string)
    (fid : string) (entries : list Permission) : M string :=
  fold_left (fun done user => fid' <- done ;; step fid' user)
            entries (ret fid).

(* ===================================================================== *)
(** * Slices of strings *)
(* ===================================================================== *)

Section SliceFacts.

Lemma str_take_drop (n : nat) (s : string) :
  str_take n s ++ str_drop n s = s.
Proof.
  revert n; induction s as [|c s IH]; intros [|n]; simpl; trivial.
  now rewrite IH.
Qed.

Lemma length_str_drop (n : nat) (s : string) :
  String.length (str_drop n s) = String.length s - n.
Proof.
  revert n; induction s as [|c s IH]; intros [|n]; simpl; trivial.
Qed.

Lemma length_append (a b : string) :
  String.length (a ++ b) = String.length a + String.length b.
Proof. induction a as [|c a IH]; simpl; trivial. now rewrite IH. Qed.

Lemma str_drop_app (p t : string) (k : nat) :
  str_drop (String.length p + k) (p ++ t) = str_drop k t.
Proof. induction p as [|c p IH]; simpl; trivial. Qed.

Lemma str_take_app (p t : string) :
  str_take (String.length p) (p ++ t) = p.
Proof. induction p as [|c p IH]; simpl; trivial. now rewrite IH. Qed.

Lemma slice_last_app (p t : string) :
  slice_last (String.length t) (p ++ t) = t.
Proof.
  unfold slice_last. rewrite length_append.
  replace (String.length p + String.length t - String.length t)
    with (String.length p + 0) by lia.
  now rewrite str_drop_app.
Qed.

Lemma slice_but_last_app (p t : string) :
  slice_but_last (String.length t) (p ++ t) = p.
Proof.
  unfold slice_but_last. rewrite length_append.
  replace (String.length p + String.length t - String.length t)
    with (String.length p) by lia.
  apply str_take_app.
Qed.

Lemma slice_last_ends_with (t s : string) :
  slice_last (String.length t) s = t <-> ends_with t s.
Proof.
  split.
  - intros H. exists (str_take (String.length s - String.length t) s).
    transitivity (str_take (String.length s - String.length t) s
                  ++ slice_last (String.length t) s).
    + unfold slice_last. now rewrite str_take_drop.
    + now rewrite H.
  - intros [p ->]. apply slice_last_app.
Qed.

Lemma slice_last_all (n : nat) (s : string) :
  String.length s <= n -> slice_last n s = s.
Proof.
  intros H. unfold slice_last.
  replace (String.length s - n) with 0 by lia. reflexivity.
Qed.

Lemma slice_last_slice_last (n m : nat) (s : string) :
  n <= m -> slice_last n (slice_last m s) = slice_last n s.
Proof.
  intros Hnm.
  destruct (Nat.le_gt_cases (String.length s) m) as [Hs|Hs].
  - now rewrite (slice_last_all m s Hs).
  - unfold slice_last at 1 3.
    rewrite <- (str_take_drop (String.length s - m) s) at 3 4.
    set (p := str_take (String.length s - m) s).
    fold (slice_last m s).
    assert (Hu : String.length (slice_last m s) = m)
      by (unfold slice_last; rewrite length_str_drop; lia).
    assert (Hp : String.length p = String.length s - m).
    { pose proof (f_equal String.length (str_take_drop (String.length s - m) s)) as E.
      rewrite length_append, length_str_drop in E. subst p. lia. }
    rewrite length_append, Hu.
    replace (String.length p + m - n) with (String.length p + (m - n)) by lia.
    now rewrite str_drop_app.
Qed.

Lemma length_fixed (k : nat) (n : N) : String.length (fixed k n) = k.
Proof.
  revert n; induction k as [|k IH]; intros n; simpl; trivial.
  rewrite length_append, IH. simpl. lia.
Qed.

(** Trimming seven characters removes the fractional part when there
    is one. *)
Lemma trim_microseconds (d : datetime) :
  microsecond d <> 0%N ->
  slice_but_last 7 (str_datetime d) = str_seconds d.
Proof.
  intros H. unfold str_datetime.
  destruct (N.eqb_spec (microsecond d) 0) as [E|_]; [contradiction|].
  replace 7 with (String.length ("." ++ fixed 6 (microsecond d)))
    by (now rewrite length_append, length_fixed).
  apply slice_but_last_app.
Qed.

(** Without a fractional part the same trimming cuts into the time of
    day. *)
Example trim_whole_second :
  slice_but_last 7 (str_datetime (mkDatetime 2021 3 7 9 5 0 0))
  = "2021-03-07 0".
Proof. reflexivity. Qed.

End SliceFacts.

(* ===================================================================== *)
(** * The mime type depends on the suffix of the name *)
(* ===================================================================== *)

Lemma slice_last_eqb (t s : string) :
  (slice_last (String.length t) s =? t) = true <-> ends_with t s.
Proof. rewrite String.eqb_eq. apply slice_last_ends_with. Qed.

Lemma file_mime_slice (file_name : string) :
  file_mime file_name = file_mime (slice_last 5 file_name).
Proof.
  unfold file_mime.
  now rewrite (slice_last_slice_last 4 5), (slice_last_slice_last 5 5)
    by repeat constructor.
Qed.

(** C8. A name ending in [.wav], [.mp3] or [.flac] is given an audio
    type and every other name an image type; the type is a function of
    the last five characters of the name alone. *)
Theorem file_mime_by_suffix (file_name : string) :
  (ends_with ".wav" file_name \/ ends_with ".mp3" file_name
   \/ ends_with ".flac" file_name ->
   is_audio (file_mime file_name) = true) /\
  (~ (ends_with ".wav" file_name \/ ends_with ".mp3" file_name
      \/ ends_with ".flac" file_name) ->
   is_image (file_mime file_name) = true) /\
  (forall other : string,
      slice_last 5 other = slice_last 5 file_name ->
      file_mime other = file_mime file_name).
Proof.
  pose proof (slice_last_eqb ".wav" file_name) as Hwav.
  pose proof (slice_last_eqb ".mp3" file_name) as Hmp3.
  pose proof (slice_last_eqb ".flac" file_name) as Hflac.
  change (String.length ".wav") with 4 in Hwav.
  change (String.length ".mp3") with 4 in Hmp3.
  change (String.length ".flac") with 5 in Hflac.
  split; [|split].
  - intros Hends. unfold file_mime.
    destruct (slice_last 4 file_name =? ".wav"); [reflexivity|].
    destruct (slice_last 4 file_name =? ".mp3"); [reflexivity|].
    destruct (slice_last 5 file_name =? ".flac"); [reflexivity|].
    destruct Hends as [H|[H|H]].
    + apply Hwav in H. discriminate.
    + apply Hmp3 in H. discriminate.
    + apply Hflac in H. discriminate.
  - intros Hno. unfold file_mime.
    destruct (slice_last 4 file_name =? ".wav").
    { exfalso. apply Hno. left. now apply Hwav. }
    destruct (slice_last 4 file_name =? ".mp3").
    { exfalso. apply Hno. right; left. now apply Hmp3. }
    destruct (slice_last 5 file_name =? ".flac").
    { exfalso. apply Hno. right; right. now apply Hflac. }
    reflexivity.
  - intros other E.
    rewrite (file_mime_slice other), E. symmetry. apply file_mime_slice.
Qed.

Lemma file_mime_by_suffix_witness :
  is_audio (file_mime "lossless.flac") = true /\
  is_image (file_mime "photo.jpg") = true /\
  file_mime "a.flac" = file_mime "lossless.flac".
Proof.
  split; [|split].
  - apply (proj1 (file_mime_by_suffix "lossless.flac")).
    right; right. exists "lossless". reflexivity.
  - apply (proj1 (proj2 (file_mime_by_suffix "photo.jpg"))).
    intros [H|[H|H]]; apply slice_last_ends_with in H;
      vm_compute in H; discriminate H.
  - apply (proj2 (proj2 (file_mime_by_suffix "lossless.flac"))).
    reflexivity.
Defined.

(* ===================================================================== *)
(** * Requests recorded by the remote operations *)
(* ===================================================================== *)

Section Recording.

Lemma extend_nil (w : World) : extend [] w = w.
Proof. destruct w. unfold extend. simpl. now rewrite app_nil_r. Qed.

Lemma extend_extend (l k : list Request) (w : World) :
  extend k (extend l w) = extend (l ++ k)%list w.
Proof. unfold extend. simpl. now rewrite app_assoc. Qed.

Lemma record_extend (r : Request) (w : World) : record r w = extend [r] w.
Proof. reflexivity. Qed.

Lemma skipn_length_app (A : Type) (l k : list A) :
  skipn (length l) (l ++ k)%list = k.
Proof. induction l; simpl; trivial. Qed.

Lemma issued_log (w w' : World) (l : list Request) :
  log w' = (log w ++ l)%list -> issued w w' = l.
Proof. intros E. unfold issued. rewrite E. apply skipn_length_app. Qed.

Lemma issued_extend (w : World) (l : list Request) :
  issued w (extend l w) = l.
Proof. now apply issued_log. Qed.

End Recording.

(* ===================================================================== *)
(** * The lookup phase *)
(* ===================================================================== *)

Section LookupFacts.

Variable folder_name : string.

(** When no listed entry bears the name, the scan finds nothing and
    sends nothing. *)
Lemma scan_absent (entries : list FileEntry) (w : World) :
  (forall e, In e entries -> entry_name e <> folder_name) ->
  scan folder_name entries w = (Ok (None, []), w).
Proof.
  induction entries as [|file rest IH]; intros H; simpl; trivial.
  destruct (String.eqb_spec (entry_name file) folder_name) as [E|_].
  - exfalso. apply (H file); [now left | exact E].
  - apply IH. intros e He. apply H. now right.
Qed.

(** A successful scan sent exactly one request, the listing of the
    permissions of the folder it returns. *)
Lemma scan_found (entries : list FileEntry) (w w' : World)
    (folder_identifier : string) (shared_users : list Permission) :
  scan folder_name entries w
    = (Ok (Some folder_identifier, shared_users), w') ->
  w' = record (PermissionsList folder_identifier) w.
Proof.
  induction entries as [|file rest IH]; simpl.
  - discriminate.
  - destruct (entry_name file =? folder_name); [|exact IH].
    unfold bind, permissions_list, ret.
    destruct (find _ (drive_files w)); intros E; inversion E; reflexivity.
Qed.

Lemma lookup_found (w w' : World)
    (folder_identifier : string) (shared_users : list Permission) :
  lookup folder_name w = (Ok (Some folder_identifier, shared_users), w') ->
  w' = extend [FilesList folder_query None;
               PermissionsList folder_identifier] w.
Proof.
  unfold lookup, bind, files_list. intros E.
  apply scan_found in E. rewrite E.
  now rewrite !record_extend, extend_extend.
Qed.

Lemma in_firstn (A : Type) (n : nat) (l : list A) (x : A) :
  In x (firstn n l) -> In x l.
Proof.
  intros H. rewrite <- (firstn_skipn n l). apply in_or_app. now left.
Qed.

Lemma in_skipn (A : Type) (n : nat) (l : list A) (x : A) :
  In x (skipn n l) -> In x l.
Proof.
  intros H. rewrite <- (firstn_skipn n l). apply in_or_app. now right.
Qed.

(** A page only holds folders of the drive. *)
Lemma in_list_page (pageToken : option nat) (w : World) (e : FileEntry) :
  In e (files (list_page pageToken w)) ->
  exists f, In f (drive_files w) /\ rf_mimeType f = mime /\ e = entry_of f.
Proof.
  unfold list_page. simpl. intros H.
  apply in_map_iff in H. destruct H as [f [Ef Hf]].
  apply in_firstn, in_skipn in Hf. unfold folder_listing in Hf.
  apply filter_In in Hf. destruct Hf as [Hin Hm].
  exists f. repeat split; trivial.
  - now apply String.eqb_eq.
  - now symmetry.
Qed.

(** When the drive holds no folder of that name, the lookup finds
    nothing. *)
Lemma lookup_absent (w : World) :
  (forall f, In f (drive_files w) -> rf_mimeType f = mime ->
             rf_name f <> folder_name) ->
  lookup folder_name w
    = (Ok (None, []), extend [FilesList folder_query None] w).
Proof.
  intros H. unfold lookup, bind, files_list.
  rewrite scan_absent; [reflexivity|].
  intros e He. apply in_list_page in He.
  destruct He as [f [Hin [Hm ->]]]. simpl. now apply H.
Qed.

End LookupFacts.

(* ===================================================================== *)
(** * The reconciliation loop *)
(* ===================================================================== *)

Section ReconcileFacts.

Variable folder_name : string.
Variables user_email access : option string.

Local Abbreviation body := (permission_body user_email access).
Local Abbreviation loop := (reconcile folder_name user_email access).
Local Abbreviation step := (reconcile_entry folder_name user_email access).

(** The loop over a concatenation runs the loop over the first part
    and carries [folder_identifier] into the loop over the second. *)
Lemma reconcile_app (l k : list Permission) (fid : string) (w : World) :
  loop fid (l ++ k)%list w
  = (fid' <- loop fid l ;; loop fid' k) w.
Proof.
  revert fid w.
  induction l as [|user l IH]; intros fid w; simpl.
  - reflexivity.
  - unfold bind at 1 2 3.
    destruct (reconcile_entry folder_name user_email access fid user w)
      as [[fid'|e] w']; [|reflexivity].
    rewrite IH. reflexivity.
Qed.

(** An entry that carries the requested address and role. *)
Lemma reconcile_entry_same (fid : string) (user : Permission) (w : World)
    (address : string) :
  emailAddress user = Some address ->
  user_email = Some address ->
  access = Some (role user) ->
  step fid user w = (Ok fid, w).
Proof.
  intros Ea Eu Er. unfold reconcile_entry.
  rewrite Ea, Eu, Er. simpl. now rewrite !String.eqb_refl.
Qed.

(** An entry that carries another address than the requested one. *)
Lemma reconcile_entry_other (fid : string) (user : Permission) (w : World)
    (address : string) :
  emailAddress user = Some address ->
  py_eq address user_email = false ->
  step fid user w = (Ok fid, extend [PermissionsCreate fid body] w).
Proof.
  intros Ea Eu. unfold reconcile_entry.
  rewrite Ea, Eu. reflexivity.
Qed.

(** An entry that carries the requested address with another role. *)
Lemma reconcile_entry_fork (fid : string) (user : Permission) (w : World)
    (address : string) :
  emailAddress user = Some address ->
  py_eq address user_email = true ->
  py_eq (role user) access = false ->
  step fid user w
  = (Ok (mint w (created w)),
     mkWorld (drive_files w) (page_size w) (mint w) (S (created w))
       (clock w) (S (ticks w))
       (log w ++
          [FilesCreate
             (folder_name ++ " "
                ++ slice_but_last 7 (str_datetime (clock w (ticks w))))
             mime;
           PermissionsCreate (mint w (created w)) body])%list).
Proof.
  intros Ea Eu Er. unfold reconcile_entry.
  rewrite Ea, Eu, Er. simpl.
  unfold bind, datetime_now, files_create, permissions_create, record, ret.
  simpl. now rewrite <- app_assoc.
Qed.

(** Over entries that all carry another address, the loop sends one
    creation per entry, all for the folder it started with. *)
Lemma reconcile_others (l : list Permission) (fid : string) (w : World) :
  Forall (fun user => exists address,
              emailAddress user = Some address /\
              py_eq address user_email = false) l ->
  loop fid l w
  = (Ok fid, extend (repeat (PermissionsCreate fid body) (length l)) w).
Proof.
  intros H. revert w.
  induction H as [|user l [address [Ea Eu]] _ IH]; intros w; simpl.
  - now rewrite extend_nil.
  - unfold bind.
    pose proof (reconcile_entry_other fid user w address Ea Eu) as E.
    rewrite E, IH, extend_extend. reflexivity.
Qed.

End ReconcileFacts.

(* ===================================================================== *)
(** * [upload] as a whole *)
(* ===================================================================== *)

Section UploadFacts.

Variables folder_name file_name : string.
Variables user_email access : option string.

Lemma truthy_some (s : string) : s <> "" -> truthy (Some s) = true.
Proof. intros H. simpl. now destruct (String.eqb_spec s ""). Qed.

(** After a successful lookup the folder found is shared and the file
    is uploaded into the folder the sharing ends with. *)
Lemma upload_found (w w1 : World) (fid : string)
    (shared_users : list Permission) :
  lookup folder_name w = (Ok (Some fid, shared_users), w1) ->
  fid <> "" ->
  upload folder_name file_name user_email access w
  = (parent <- share_folder folder_name user_email access fid shared_users ;;
     files_create_media file_name [parent] (file_mime file_name))
      (extend [FilesList folder_query None; PermissionsList fid] w).
Proof.
  intros E Hfid. rewrite <- (lookup_found _ _ _ _ _ E).
  unfold upload. unfold bind at 1. rewrite E. cbn [fst snd].
  now rewrite (truthy_some fid Hfid).
Qed.

(** When the lookup finds nothing a folder is created. *)
Lemma upload_absent (w : World) :
  lookup folder_name w
    = (Ok (None, []), extend [FilesList folder_query None] w) ->
  upload folder_name file_name user_email access w
  = (parent <- create_folder folder_name user_email access ;;
     files_create_media file_name [parent] (file_mime file_name))
      (extend [FilesList folder_query None] w).
Proof.
  intros E. unfold upload. unfold bind at 1. rewrite E. reflexivity.
Qed.

Lemma map_const_repeat (A B : Type) (b : B) (l : list A) :
  map (fun _ => b) l = repeat b (length l).
Proof. induction l; simpl; congruence. Qed.

Lemma forallb_repeat (A : Type) (p : A -> bool) (a : A) (n : nat) :
  p a = true -> forallb p (repeat a n) = true.
Proof. intros H. induction n; simpl; trivial. now rewrite H. Qed.

End UploadFacts.

Lemma for_each_from (folder_name : string) (user_email access : option string)
    (entries : list Permission) (done : M string) (w : World) :
  fold_left (fun done user =>
               fid' <- done ;;
               reconcile_entry folder_name user_email access fid' user)
            entries done w
  = (fid <- done ;; reconcile folder_name user_email access fid entries) w.
Proof.
  revert done. induction entries as [|user rest IH]; intros done; simpl.
  - unfold bind, ret. now destruct (done w) as [[fid|e] w'].
  - rewrite IH. unfold bind. now destruct (done w) as [[fid|e] w'].
Qed.

(** The loop of line 85 is the iteration over every entry, in order. *)
Lemma reconcile_for_each (folder_name : string)
    (user_email access : option string)
    (entries : list Permission) (fid : string) (w : World) :
  reconcile folder_name user_email access fid entries w
  = for_each_in_order (reconcile_entry folder_name user_email access)
                      fid entries w.
Proof. unfold for_each_in_order. now rewrite for_each_from. Qed.

(** C5. An entry that carries exactly the requested address and role is
    passed over: handling it returns the current folder and sends
    nothing.  The loop does not stop there: a list with such an entry
    is processed as the list without it, and that means that every
    other entry, those listed after it included, goes through the
    per-entry step, in order.  In particular the entry listed next is
    handled from the same folder and the same world: with another
    address it makes the loop ask for the requested grant on the
    current folder, with the requested address and another role it
    makes the loop create a folder and ask for the grant there. *)
Theorem exact_match_is_skipped
    (folder_name : string) (user_email access : option string)
    (pre post : list Permission) (user : Permission) (address fid : string)
    (w : World) :
  emailAddress user = Some address ->
  user_email = Some address ->
  access = Some (role user) ->
  reconcile_entry folder_name user_email access fid user w = (Ok fid, w) /\
  reconcile folder_name user_email access fid (user :: post) w
    = reconcile folder_name user_email access fid post w /\
  reconcile folder_name user_email access fid (pre ++ user :: post)%list w
    = reconcile folder_name user_email access fid (pre ++ post)%list w /\
  reconcile folder_name user_email access fid (pre ++ user :: post)%list w
    = for_each_in_order (reconcile_entry folder_name user_email access)
                        fid (pre ++ post)%list w /\
  (forall (next : Permission) (other : string) (rest : list Permission),
      emailAddress next = Some other -> other <> address ->
      reconcile folder_name user_email access fid (user :: next :: rest) w
      = reconcile folder_name user_email access fid rest
          (extend [PermissionsCreate fid
                     (mkPermissionBody "drive#permission" "user"
                                       user_email access)] w)) /\
  (forall (next : Permission) (rest : list Permission),
      emailAddress next = Some address -> role next <> role user ->
      reconcile folder_name user_email access fid (user :: next :: rest) w
      = reconcile folder_name user_email access (mint w (created w)) rest
          (mkWorld (drive_files w) (page_size w) (mint w) (S (created w))
             (clock w) (S (ticks w))
             (log w ++
                [FilesCreate
                   (folder_name ++ " "
                      ++ slice_but_last 7 (str_datetime (clock w (ticks w))))
                   "application/vnd.google-apps.folder";
                 PermissionsCreate (mint w (created w))
                   (mkPermissionBody "drive#permission" "user"
                                     user_email access)])%list)).
Proof.
  intros Ea Eu Er.
  assert (Hskip : forall l f v,
             reconcile folder_name user_email access f (user :: l) v
             = reconcile folder_name user_email access f l v).
  { intros l f v. simpl. unfold bind.
    now rewrite (reconcile_entry_same folder_name user_email access
                   f user v address Ea Eu Er). }
  assert (Hdrop : reconcile folder_name user_email access fid
                            (pre ++ user :: post)%list w
                  = reconcile folder_name user_email access fid
                              (pre ++ post)%list w).
  { rewrite !reconcile_app. unfold bind.
    destruct (reconcile folder_name user_email access fid pre w)
      as [[f|e] v]; [apply Hskip | reflexivity]. }
  split; [|split; [|split; [|split; [|split]]]].
  - now apply reconcile_entry_same with (address := address).
  - apply Hskip.
  - exact Hdrop.
  - rewrite Hdrop. apply reconcile_for_each.
  - intros next other rest En Hne. rewrite Hskip.
    cbn [reconcile]. unfold bind.
    rewrite (reconcile_entry_other folder_name user_email access fid next w
               other En); [reflexivity|].
    rewrite Eu. simpl. now apply String.eqb_neq.
  - intros next rest En Hne. rewrite Hskip.
    cbn [reconcile]. unfold bind.
    rewrite (reconcile_entry_fork folder_name user_email access fid next w
               address En); [reflexivity| |].
    + rewrite Eu. simpl. apply String.eqb_refl.
    + rewrite Er. simpl. now apply String.eqb_neq.
Qed.

(** C6. When every non-owner entry of the folder found carries an
    address other than the requested one, [upload] asks for the
    requested grant on that folder (once per entry, once when there is
    no entry), asks for nothing else about permissions, in particular
    for no update and no removal, and uploads into that folder. *)
Theorem other_addresses_add_only
    (folder_name file_name e r fid : string)
    (shared_users : list Permission) (w w1 : World) :
  lookup folder_name w = (Ok (Some fid, shared_users), w1) ->
  fid <> "" -> e <> "" -> r <> "" ->
  Forall (fun user => exists address,
              emailAddress user = Some address /\ address <> e)
         shared_users ->
  exists w',
    upload folder_name file_name (Some e) (Some r) w = (Ok tt, w') /\
    issued w w'
    = ([FilesList folder_query None; PermissionsList fid]
       ++ repeat (PermissionsCreate fid (mkPermissionBody "drive#permission" "user"
                                             (Some e) (Some r)))
                 (Nat.max 1 (length shared_users))
       ++ [FilesCreateMedia file_name [fid] (file_mime file_name)])%list /\
    In (PermissionsCreate fid (mkPermissionBody "drive#permission" "user"
                                             (Some e) (Some r)))
       (issued w w') /\
    forallb (fun q => negb (alters_grant q)) (issued w w') = true.
Proof.
  intros E Hfid He Hr Hall.
  assert (Hrun : exists w',
    upload folder_name file_name (Some e) (Some r) w = (Ok tt, w') /\
    issued w w'
    = ([FilesList folder_query None; PermissionsList fid]
       ++ repeat (PermissionsCreate fid (mkPermissionBody "drive#permission" "user"
                                             (Some e) (Some r)))
                 (Nat.max 1 (length shared_users))
       ++ [FilesCreateMedia file_name [fid] (file_mime file_name)])%list).
  { rewrite (upload_found _ _ _ _ _ _ _ _ E Hfid).
    destruct shared_users as [|user rest].
    - unfold share_folder, bind.
      rewrite (truthy_some e He), (truthy_some r Hr). simpl.
      eexists; split; [reflexivity|].
      apply issued_log. simpl. now rewrite <- !app_assoc.
    - unfold share_folder, bind.
      rewrite reconcile_others.
      + simpl. eexists; split; [reflexivity|].
        apply issued_log. simpl. now rewrite <- !app_assoc.
      + eapply Forall_impl; [|exact Hall].
        intros u [address [Ea Ne]]. exists address. split; trivial.
        simpl. now apply String.eqb_neq. }
  destruct Hrun as [w' [Hup Hlog]]. exists w'.
  split; [exact Hup|]. split; [exact Hlog|]. rewrite Hlog. split.
  - apply in_or_app. right. apply in_or_app. left.
    destruct (length shared_users); simpl; now left.
  - rewrite !forallb_app. simpl.
    rewrite forallb_repeat; reflexivity.
Qed.

(** C7. When the drive holds no folder of the requested name, [upload]
    creates one folder of that name and no other; it asks for one grant
    on the new folder when an address and a role are both given (and not
    empty), and for none otherwise; the file goes into the new folder. *)
Theorem absent_folder_created_once
    (folder_name file_name : string) (user_email access : option string)
    (w : World) :
  (forall f, In f (drive_files w) -> rf_mimeType f = mime ->
             rf_name f <> folder_name) ->
  exists w',
    upload folder_name file_name user_email access w = (Ok tt, w') /\
    issued w w'
    = ([FilesList folder_query None; FilesCreate folder_name mime]
       ++ (if truthy user_email && truthy access
           then [PermissionsCreate (mint w (created w))
                   (permission_body user_email access)]
           else [])
       ++ [FilesCreateMedia file_name [mint w (created w)]
             (file_mime file_name)])%list.
Proof.
  intros Habsent.
  rewrite (upload_absent _ _ _ _ _ (lookup_absent folder_name w Habsent)).
  unfold create_folder, bind, files_create. cbn [extend mint created].
  destruct (truthy user_email && truthy access); simpl;
    (eexists; split; [reflexivity|]);
    apply issued_log; simpl; now rewrite <- !app_assoc.
Qed.

(** C9, amended. When no address is given and every non-owner entry of
    the folder found carries an address, each entry takes the last
    branch of the loop: [upload] asks once per entry for a grant on the
    folder found, with no address and with the role as it was passed. *)
Theorem absent_email_grants_per_entry
    (folder_name file_name fid : string) (access : option string)
    (shared_users : list Permission) (w w1 : World) :
  lookup folder_name w = (Ok (Some fid, shared_users), w1) ->
  fid <> "" ->
  shared_users <> [] ->
  Forall (fun user => emailAddress user <> None) shared_users ->
  Forall (fun user =>
            forall f v,
              reconcile_entry folder_name None access f user v
              = (Ok f, extend [PermissionsCreate f
                                 (permission_body None access)] v))
         shared_users /\
  exists w',
    upload folder_name file_name None access w = (Ok tt, w') /\
    issued w w'
    = ([FilesList folder_query None; PermissionsList fid]
       ++ map (fun _ => PermissionsCreate fid
                          (mkPermissionBody "drive#permission" "user"
                                            None access))
              shared_users
       ++ [FilesCreateMedia file_name [fid] (file_mime file_name)])%list.
Proof.
  intros E Hfid Hne Hall.
  assert (Hothers : Forall (fun user => exists address,
                        emailAddress user = Some address /\
                        py_eq address None = false) shared_users).
  { eapply Forall_impl; [|exact Hall]. intros u Hu.
    destruct (emailAddress u) as [address|] eqn:Ea; [|contradiction].
    now exists address. }
  split.
  - eapply Forall_impl; [|exact Hothers].
    intros u [address [Ea Eo]] f v.
    now apply reconcile_entry_other with (address := address).
  - rewrite (upload_found _ _ _ _ _ _ _ _ E Hfid).
    destruct shared_users as [|user rest]; [contradiction|].
    unfold share_folder, bind.
    rewrite (reconcile_others folder_name None access _ fid _ Hothers).
    eexists; split; [reflexivity|].
    apply issued_log. rewrite map_const_repeat.
    simpl. now rewrite <- !app_assoc.
Qed.

Lemma share_folder_nonempty
    (folder_name : string) (user_email access : option string)
    (fid : string) (shared_users : list Permission) :
  shared_users <> [] ->
  share_folder folder_name user_email access fid shared_users
  = reconcile folder_name user_email access fid shared_users.
Proof. destruct shared_users; [contradiction | reflexivity]. Qed.

(** C2, amended. The folder found has one entry for the requested
    address, with another role, and every other entry carries another
    address; the clock reading has a fractional part.  Then [upload]
    creates one folder named after the folder found, a space and the
    reading cut to the second, and asks for the requested grant on the
    new folder; it sends no update and no removal; the file goes into
    the new folder.  The entries listed before the one with the
    requested address each cause a request for the requested grant on
    the folder found, those listed after it one on the new folder: the
    folder found receives no permission request exactly when the entry
    is listed first. *)
Theorem role_change_forks_folder
    (folder_name file_name e r fid : string)
    (pre post : list Permission) (user : Permission) (w w1 : World) :
  lookup folder_name w = (Ok (Some fid, pre ++ user :: post)%list, w1) ->
  fid <> "" ->
  emailAddress user = Some e ->
  role user <> r ->
  Forall (fun u => exists address,
              emailAddress u = Some address /\ address <> e) pre ->
  Forall (fun u => exists address,
              emailAddress u = Some address /\ address <> e) post ->
  microsecond (clock w (ticks w)) <> 0%N ->
  exists w',
    upload folder_name file_name (Some e) (Some r) w = (Ok tt, w') /\
    issued w w'
    = ([FilesList folder_query None; PermissionsList fid]
       ++ repeat (PermissionsCreate fid (mkPermissionBody "drive#permission" "user"
                                    (Some e) (Some r)))
                 (length pre)
       ++ [FilesCreate (folder_name ++ " " ++ str_seconds (clock w (ticks w)))
                       mime;
           PermissionsCreate (mint w (created w))
                             (mkPermissionBody "drive#permission" "user"
                                    (Some e) (Some r))]
       ++ repeat (PermissionsCreate (mint w (created w))
                                    (mkPermissionBody "drive#permission" "user"
                                    (Some e) (Some r)))
                 (length post)
       ++ [FilesCreateMedia file_name [mint w (created w)]
                            (file_mime file_name)])%list /\
    forallb (fun q => negb (alters_grant q)) (issued w w') = true /\
    (pre = [] -> mint w (created w) <> fid ->
     forallb (fun q => negb (grants_on fid q)) (issued w w') = true).
Proof.
  intros E Hfid Ea Hrole Hpre Hpost Hus.
  assert (Hweak : forall l,
             Forall (fun u => exists address,
                         emailAddress u = Some address /\ address <> e) l ->
             Forall (fun u => exists address,
                         emailAddress u = Some address /\
                         py_eq address (Some e) = false) l).
  { intros l Hl. eapply Forall_impl; [|exact Hl].
    intros u [address [Eu Ne]]. exists address. split; trivial.
    simpl. now apply String.eqb_neq. }
  assert (Hrun : exists w',
    upload folder_name file_name (Some e) (Some r) w = (Ok tt, w') /\
    issued w w'
    = ([FilesList folder_query None; PermissionsList fid]
       ++ repeat (PermissionsCreate fid (mkPermissionBody "drive#permission" "user"
                                    (Some e) (Some r)))
                 (length pre)
       ++ [FilesCreate (folder_name ++ " " ++ str_seconds (clock w (ticks w)))
                       mime;
           PermissionsCreate (mint w (created w))
                             (mkPermissionBody "drive#permission" "user"
                                    (Some e) (Some r))]
       ++ repeat (PermissionsCreate (mint w (created w))
                                    (mkPermissionBody "drive#permission" "user"
                                    (Some e) (Some r)))
                 (length post)
       ++ [FilesCreateMedia file_name [mint w (created w)]
                            (file_mime file_name)])%list).
  { rewrite (upload_found _ _ _ _ _ _ _ _ E Hfid).
    rewrite <- (trim_microseconds _ Hus).
    unfold bind at 1.
    rewrite share_folder_nonempty
      by (intros C; symmetry in C; now apply app_cons_not_nil in C).
    rewrite reconcile_app. unfold bind at 1.
    rewrite (reconcile_others folder_name (Some e) (Some r) pre fid _
               (Hweak pre Hpre)).
    cbn [reconcile]. unfold bind at 1.
    rewrite (reconcile_entry_fork folder_name (Some e) (Some r) fid user _ e Ea).
    - rewrite (reconcile_others folder_name (Some e) (Some r) post _ _
                 (Hweak post Hpost)).
      eexists; split; [reflexivity|].
      apply issued_log. simpl. now rewrite <- !app_assoc.
    - simpl. apply String.eqb_refl.
    - simpl. now apply String.eqb_neq. }
  destruct Hrun as [w' [Hup Hlog]]. exists w'.
  split; [exact Hup|]. split; [exact Hlog|]. rewrite Hlog. split.
  - rewrite !forallb_app. simpl.
    rewrite !forallb_repeat; reflexivity.
  - intros -> Hnew. rewrite !forallb_app. simpl.
    apply String.eqb_neq in Hnew. rewrite Hnew. simpl.
    rewrite forallb_repeat; [reflexivity|].
    simpl. now rewrite Hnew.
Qed.

(* ===================================================================== *)
(** * The first page and the complete listing *)
(* ===================================================================== *)

(** The lookup scans the first page of the listing and nothing else. *)
Lemma lookup_reads_first_page (folder_name : string) (w : World) :
  lookup folder_name w
  = scan folder_name
         (map entry_of (firstn (page_size w) (folder_listing w)))
         (extend [FilesList folder_query None] w).
Proof. reflexivity. Qed.

Lemma follow_tokens_from (fuel : nat) (pageToken : option nat) (w : World) :
  0 < page_size w ->
  let start := match pageToken with None => 0 | Some k => k end in
  length (skipn start (folder_listing w)) < fuel ->
  follow_tokens fuel pageToken w
  = map entry_of (skipn start (folder_listing w)).
Proof.
  intros Hpage. revert pageToken.
  induction fuel as [|fuel IH]; intros pageToken start Hfuel; [lia|].
  cbn [follow_tokens]. unfold list_page. cbn [files nextPageToken].
  fold start.
  destruct (Nat.leb_spec (length (skipn start (folder_listing w)))
                         (page_size w)) as [Hle|Hgt].
  - rewrite app_nil_r. now rewrite firstn_all2.
  - rewrite (IH (Some (start + page_size w))).
    + cbn. rewrite <- map_app. f_equal.
      rewrite (Nat.add_comm start), <- skipn_skipn.
      apply firstn_skipn.
    + cbn. rewrite (Nat.add_comm start), <- skipn_skipn.
      rewrite length_skipn. lia.
Qed.

(** Following the tokens yields every folder of the drive, in order. *)
Lemma complete_listing_all (w : World) :
  0 < page_size w ->
  complete_listing w = map entry_of (folder_listing w).
Proof.
  intros Hpage. unfold complete_listing.
  rewrite follow_tokens_from; trivial. simpl. lia.
Qed.

(** C1, on [crowded_drive]. The complete listing has a folder named [X],
    with id [id-X]; the lookup of [upload] asks for the first page only
    and finds nothing, and [upload] creates a second folder [X]. *)
Theorem lookup_stops_at_first_page :
  first_named "X" (complete_listing crowded_drive) = Some "id-X" /\
  nextPageToken (list_page None crowded_drive) = Some 100 /\
  lookup "X" crowded_drive
  = (Ok (None, []), extend [FilesList folder_query None] crowded_drive) /\
  exists w',
    upload "X" "photo.jpg" None None crowded_drive = (Ok tt, w') /\
    issued crowded_drive w'
    = [FilesList folder_query None; FilesCreate "X" mime;
       FilesCreateMedia "photo.jpg" ["new-000"] "image / jpeg"].
Proof.
  split; [|split; [|split]]; try (vm_compute; reflexivity).
  eexists; split; vm_compute; reflexivity.
Qed.

(* ===================================================================== *)
(** * [authorization] *)
(* ===================================================================== *)

Section AuthorizationFacts.

Variable pickle_loads : list Byte.byte -> option Credentials.
Variable pickle_dumps : Credentials -> list Byte.byte.
Variables (client_secret_file api_name api_version : string).
Variable (scope : list string).

Local Abbreviation run :=
  (authorization pickle_loads pickle_dumps
                 client_secret_file api_name api_version scope).

Lemma expired_not_valid (now : Z) (creds : Credentials) :
  expired now creds = true -> valid now creds = false.
Proof.
  intros H. unfold valid. rewrite H. now destruct (token creds).
Qed.

(** With a loaded credential that is expired and has a refresh
    token, [authorization] is the refresh followed by [build]. *)
Lemma authorization_refresh_branch (h : Host) (data : list Byte.byte)
    (creds : Credentials) :
  token_pickle h = Some data ->
  pickle_loads data = Some creds ->
  expired (utcnow h) creds = true ->
  truthy (refresh_token creds) = true ->
  run h
  = (refreshed <- refresh creds ;; build api_name api_version refreshed) h.
Proof.
  intros Hfile Hload Hexp Hrt.
  unfold authorization, bind at 1 2, load_token.
  rewrite Hfile, Hload. cbn iota beta.
  rewrite (expired_not_valid _ _ Hexp), Hexp, Hrt. reflexivity.
Qed.

End AuthorizationFacts.

(** C10. When the token file unpickles to a credential that is valid,
    [authorization] returns a handle bound to that credential; its only
    step is [build], and the token file holds the bytes it held. *)
Theorem valid_token_not_rewritten
    (pickle_loads : list Byte.byte -> option Credentials)
    (pickle_dumps : Credentials -> list Byte.byte)
    (client_secret_file api_name api_version : string) (scope : list string)
    (h : Host) (data : list Byte.byte) (creds : Credentials) :
  token_pickle h = Some data ->
  pickle_loads data = Some creds ->
  valid (utcnow h) creds = true ->
  exists h',
    authorization pickle_loads pickle_dumps
                  client_secret_file api_name api_version scope h
    = (Ok (mkResource api_name api_version creds), h') /\
    token_pickle h' = Some data /\
    events h'
    = (events h ++ [Build (mkResource api_name api_version creds)])%list.
Proof.
  intros Hfile Hload Hvalid.
  unfold authorization, bind, load_token.
  rewrite Hfile, Hload. cbn iota beta. rewrite Hvalid. cbn.
  eexists; split; [reflexivity|]. split; [exact Hfile | reflexivity].
Qed.

(** C3, amended. When the token file unpickles to a credential that is
    expired and has a refresh token, [authorization] calls the refresh
    once and does not run the interactive flow; when the refresh
    succeeds the handle is bound to the refreshed credential.  Nothing
    is written: the token file holds the bytes it held. *)
Theorem expired_token_refreshed_once
    (pickle_loads : list Byte.byte -> option Credentials)
    (pickle_dumps : Credentials -> list Byte.byte)
    (client_secret_file api_name api_version : string) (scope : list string)
    (h : Host) (data : list Byte.byte) (creds : Credentials) :
  token_pickle h = Some data ->
  pickle_loads data = Some creds ->
  expired (utcnow h) creds = true ->
  truthy (refresh_token creds) = true ->
  exists h',
    authorization pickle_loads pickle_dumps
                  client_secret_file api_name api_version scope h
    = (match refresh_grant h with
       | Some (access_token, until) =>
           Ok (mkResource api_name api_version
                 (mkCredentials (Some access_token) (refresh_token creds)
                                (Some until)))
       | None => Raise RefreshError
       end, h') /\
    events h'
    = (events h ++
       Refresh creds ::
       match refresh_grant h with
       | Some (access_token, until) =>
           [Build (mkResource api_name api_version
                     (mkCredentials (Some access_token) (refresh_token creds)
                                    (Some until)))]
       | None => []
       end)%list /\
    token_pickle h' = Some data.
Proof.
  intros Hfile Hload Hexp Hrt.
  rewrite (authorization_refresh_branch _ _ _ _ _ _ _ _ _ Hfile Hload Hexp Hrt).
  unfold bind, refresh, build.
  destruct (refresh_grant h) as [[access_token until]|];
    (eexists; split; [reflexivity|]); cbn.
  - split; [now rewrite <- app_assoc | exact Hfile].
  - split; [reflexivity | exact Hfile].
Qed.

(** C4, amended. When the token file unpickles to a credential that is
    expired and has a refresh token and the refresh fails,
    [authorization] raises the refresh error: it returns no handle, it
    does not run the interactive flow, and it writes nothing. *)
Theorem failed_refresh_is_raised
    (pickle_loads : list Byte.byte -> option Credentials)
    (pickle_dumps : Credentials -> list Byte.byte)
    (client_secret_file api_name api_version : string) (scope : list string)
    (h : Host) (data : list Byte.byte) (creds : Credentials) :
  token_pickle h = Some data ->
  pickle_loads data = Some creds ->
  expired (utcnow h) creds = true ->
  truthy (refresh_token creds) = true ->
  refresh_grant h = None ->
  authorization pickle_loads pickle_dumps
                client_secret_file api_name api_version scope h
  = (Raise RefreshError, note (Refresh creds) h).
Proof.
  intros Hfile Hload Hexp Hrt Hfail.
  rewrite (authorization_refresh_branch _ _ _ _ _ _ _ _ _ Hfile Hload Hexp Hrt).
  unfold bind, refresh. now rewrite Hfail.
Qed.

(* ===================================================================== *)
(** * Runs on the sample drives and hosts *)
(* ===================================================================== *)

Lemma exact_match_is_skipped_witness :
  reconcile_entry "X" (Some "a@example.com") (Some "reader")
                  "id-X" alice_reader drive_bac = (Ok "id-X", drive_bac) /\
  reconcile "X" (Some "a@example.com") (Some "reader") "id-X"
            [bob_reader; alice_reader; carol_writer] drive_bac
  = (Ok "id-X",
     extend [PermissionsCreate "id-X"
               (mkPermissionBody "drive#permission" "user"
                                 (Some "a@example.com") (Some "reader"));
             PermissionsCreate "id-X"
               (mkPermissionBody "drive#permission" "user"
                                 (Some "a@example.com") (Some "reader"))]
            drive_bac) /\
  reconcile "X" (Some "a@example.com") (Some "reader") "id-X"
            [alice_reader; carol_writer] drive_bac
  = (Ok "id-X",
     extend [PermissionsCreate "id-X"
               (mkPermissionBody "drive#permission" "user"
                                 (Some "a@example.com") (Some "reader"))]
            drive_bac) /\
  reconcile "X" (Some "a@example.com") (Some "reader") "id-X"
            [alice_reader; mkPermission (Some "a@example.com") "writer"]
            drive_bac
  = (Ok "new-000",
     mkWorld (drive_files drive_bac) 100 sample_mint 1 sample_clock 1
       [FilesCreate "X 2021-03-07 09:05:00" mime;
        PermissionsCreate "new-000"
          (mkPermissionBody "drive#permission" "user"
                            (Some "a@example.com") (Some "reader"))]).
Proof.
  destruct (exact_match_is_skipped "X" (Some "a@example.com") (Some "reader")
              [bob_reader] [carol_writer] alice_reader "a@example.com" "id-X"
              drive_bac eq_refl eq_refl eq_refl)
    as [Hsame [_ [_ [Hall [Hother Hfork]]]]].
  split; [exact Hsame|]. split; [|split].
  - change [bob_reader; alice_reader; carol_writer]
      with ([bob_reader] ++ alice_reader :: [carol_writer])%list.
    rewrite Hall. vm_compute. reflexivity.
  - rewrite (Hother carol_writer "c@example.com" [] eq_refl);
      [reflexivity | discriminate].
  - rewrite (Hfork (mkPermission (Some "a@example.com") "writer") [] eq_refl);
      [vm_compute; reflexivity | discriminate].
Defined.

Lemma other_addresses_add_only_witness :
  exists w',
    upload "X" "photo.jpg" (Some "b@example.com") (Some "reader") drive_a
    = (Ok tt, w') /\
    issued drive_a w'
    = [FilesList folder_query None; PermissionsList "id-X";
       PermissionsCreate "id-X"
         (mkPermissionBody "drive#permission" "user"
                           (Some "b@example.com") (Some "reader"));
       FilesCreateMedia "photo.jpg" ["id-X"] "image / jpeg"] /\
    In (PermissionsCreate "id-X"
          (mkPermissionBody "drive#permission" "user"
                            (Some "b@example.com") (Some "reader")))
       (issued drive_a w') /\
    forallb (fun q => negb (alters_grant q)) (issued drive_a w') = true.
Proof.
  apply (other_addresses_add_only "X" "photo.jpg" "b@example.com" "reader"
           "id-X" [alice_reader] drive_a
           (extend [FilesList folder_query None; PermissionsList "id-X"] drive_a)).
  - vm_compute; reflexivity.
  - discriminate.
  - discriminate.
  - discriminate.
  - repeat constructor. exists "a@example.com". split; [reflexivity|discriminate].
Defined.

Lemma absent_folder_created_once_witness :
  exists w',
    upload "Y" "song.wav" (Some "b@example.com") (Some "reader") drive_a
    = (Ok tt, w') /\
    issued drive_a w'
    = [FilesList folder_query None; FilesCreate "Y" mime;
       PermissionsCreate "new-000"
         (permission_body (Some "b@example.com") (Some "reader"));
       FilesCreateMedia "song.wav" ["new-000"] "audio / wav"].
Proof.
  apply (absent_folder_created_once "Y" "song.wav"
           (Some "b@example.com") (Some "reader") drive_a).
  intros f [<-|[]] _. discriminate.
Defined.

Lemma absent_email_grants_per_entry_witness :
  Forall (fun user =>
            forall f v,
              reconcile_entry "X" None None f user v
              = (Ok f, extend [PermissionsCreate f
                                 (permission_body None None)] v))
         [alice_reader; carol_writer] /\
  exists w',
    upload "X" "photo.jpg" None None drive_ac = (Ok tt, w') /\
    issued drive_ac w'
    = [FilesList folder_query None; PermissionsList "id-X";
       PermissionsCreate "id-X"
         (mkPermissionBody "drive#permission" "user" None None);
       PermissionsCreate "id-X"
         (mkPermissionBody "drive#permission" "user" None None);
       FilesCreateMedia "photo.jpg" ["id-X"] "image / jpeg"].
Proof.
  apply (absent_email_grants_per_entry "X" "photo.jpg" "id-X" None
           [alice_reader; carol_writer] drive_ac
           (extend [FilesList folder_query None; PermissionsList "id-X"] drive_ac)).
  - vm_compute; reflexivity.
  - discriminate.
  - discriminate.
  - repeat constructor; discriminate.
Defined.

Lemma role_change_forks_folder_witness :
  (exists w',
      upload "X" "photo.jpg" (Some "a@example.com") (Some "writer") drive_a
      = (Ok tt, w') /\
      issued drive_a w'
      = [FilesList folder_query None; PermissionsList "id-X";
         FilesCreate "X 2021-03-07 09:05:00" mime;
         PermissionsCreate "new-000"
           (mkPermissionBody "drive#permission" "user"
                             (Some "a@example.com") (Some "writer"));
         FilesCreateMedia "photo.jpg" ["new-000"] "image / jpeg"] /\
      forallb (fun q => negb (alters_grant q)) (issued drive_a w') = true /\
      forallb (fun q => negb (grants_on "id-X" q)) (issued drive_a w') = true)
  /\
  (exists w',
      upload "X" "photo.jpg" (Some "a@example.com") (Some "writer") drive_bac
      = (Ok tt, w') /\
      issued drive_bac w'
      = [FilesList folder_query None; PermissionsList "id-X";
         PermissionsCreate "id-X"
           (mkPermissionBody "drive#permission" "user"
                             (Some "a@example.com") (Some "writer"));
         FilesCreate "X 2021-03-07 09:05:00" mime;
         PermissionsCreate "new-000"
           (mkPermissionBody "drive#permission" "user"
                             (Some "a@example.com") (Some "writer"));
         PermissionsCreate "new-000"
           (mkPermissionBody "drive#permission" "user"
                             (Some "a@example.com") (Some "writer"));
         FilesCreateMedia "photo.jpg" ["new-000"] "image / jpeg"] /\
      forallb (fun q => negb (alters_grant q)) (issued drive_bac w') = true).
Proof.
  split.
  - destruct (role_change_forks_folder "X" "photo.jpg" "a@example.com"
                "writer" "id-X" [] [] alice_reader drive_a
                (extend [FilesList folder_query None; PermissionsList "id-X"]
                        drive_a))
      as [w' [Hrun [Hlog [Hadd Hfound]]]].
    + vm_compute; reflexivity.
    + discriminate.
    + reflexivity.
    + discriminate.
    + constructor.
    + constructor.
    + discriminate.
    + exists w'. split; [exact Hrun|]. split; [exact Hlog|].
      split; [exact Hadd|]. apply Hfound; [reflexivity | discriminate].
  - destruct (role_change_forks_folder "X" "photo.jpg" "a@example.com"
                "writer" "id-X" [bob_reader] [carol_writer] alice_reader
                drive_bac
                (extend [FilesList folder_query None; PermissionsList "id-X"]
                        drive_bac))
      as [w' [Hrun [Hlog [Hadd _]]]].
    + vm_compute; reflexivity.
    + discriminate.
    + reflexivity.
    + discriminate.
    + repeat constructor. exists "b@example.com".
      split; [reflexivity | discriminate].
    + repeat constructor. exists "c@example.com".
      split; [reflexivity | discriminate].
    + discriminate.
    + exists w'. split; [exact Hrun|]. split; [exact Hlog | exact Hadd].
Defined.

(** C2, on a folder shared with [b@example.com] and then with
    [a@example.com] as readers, for the request of [a@example.com] as
    writer: before the new folder is created, the entry of
    [b@example.com] makes [upload] ask for the writer grant on the
    folder found. *)
Lemma role_change_reaches_found_folder :
  exists w',
    upload "X" "photo.jpg" (Some "a@example.com") (Some "writer") drive_ba
    = (Ok tt, w') /\
    issued drive_ba w'
    = [FilesList folder_query None; PermissionsList "id-X";
       PermissionsCreate "id-X"
         (mkPermissionBody "drive#permission" "user"
                           (Some "a@example.com") (Some "writer"));
       FilesCreate "X 2021-03-07 09:05:00" mime;
       PermissionsCreate "new-000"
         (mkPermissionBody "drive#permission" "user"
                           (Some "a@example.com") (Some "writer"));
       FilesCreateMedia "photo.jpg" ["new-000"] "image / jpeg"] /\
    forallb (fun q => negb (grants_on "id-X" q)) (issued drive_ba w') = false.
Proof.
  eexists. split; [vm_compute; reflexivity|].
  split; vm_compute; reflexivity.
Qed.

(** C9, on a folder shared with [a@example.com] as reader, for a call
    that gives this address and no role: the entry takes the branch
    that creates a folder, and the one permission request is for the
    new folder and carries the address. *)
Lemma absent_role_takes_fork :
  exists w',
    upload "X" "photo.jpg" (Some "a@example.com") None drive_a = (Ok tt, w') /\
    issued drive_a w'
    = [FilesList folder_query None; PermissionsList "id-X";
       FilesCreate "X 2021-03-07 09:05:00" mime;
       PermissionsCreate "new-000"
         (mkPermissionBody "drive#permission" "user"
                           (Some "a@example.com") None);
       FilesCreateMedia "photo.jpg" ["new-000"] "image / jpeg"] /\
    ~ In (PermissionsCreate "id-X"
            (mkPermissionBody "drive#permission" "user" None None))
         (issued drive_a w').
Proof.
  eexists. split; [vm_compute; reflexivity|].
  split; [vm_compute; reflexivity|].
  vm_compute. intros [H|[H|[H|[H|[H|[]]]]]]; discriminate H.
Qed.

Lemma valid_token_not_rewritten_witness :
  exists h',
    sample_authorization valid_host
    = (Ok (mkResource "drive" "v3" old_credentials), h') /\
    token_pickle h' = Some (list_byte_of_string "old") /\
    events h' = [Build (mkResource "drive" "v3" old_credentials)].
Proof.
  apply (valid_token_not_rewritten sample_loads sample_dumps
           "client_secret.json" "drive" "v3" sample_scope
           valid_host (list_byte_of_string "old") old_credentials);
    reflexivity.
Defined.

Lemma expired_token_refreshed_once_witness :
  exists h',
    sample_authorization stale_host
    = (Ok (mkResource "drive" "v3"
             (mkCredentials (Some "new") (Some "1//refresh") (Some 5600%Z))),
       h') /\
    events h'
    = [Refresh old_credentials;
       Build (mkResource "drive" "v3"
                (mkCredentials (Some "new") (Some "1//refresh")
                               (Some 5600%Z)))] /\
    token_pickle h' = Some (list_byte_of_string "old").
Proof.
  apply (expired_token_refreshed_once sample_loads sample_dumps
           "client_secret.json" "drive" "v3" sample_scope
           stale_host (list_byte_of_string "old") old_credentials);
    reflexivity.
Defined.

Lemma failed_refresh_is_raised_witness :
  sample_authorization revoked_host
  = (Raise RefreshError, note (Refresh old_credentials) revoked_host).
Proof.
  apply (failed_refresh_is_raised sample_loads sample_dumps
           "client_secret.json" "drive" "v3" sample_scope
           revoked_host (list_byte_of_string "old") old_credentials);
    reflexivity.
Defined.

(** C3, on [stale_host]. The refresh succeeds and the handle carries the
    new access token, but no [Dump] is among the steps and the token
    file still holds the old credential, not the refreshed one. *)
Lemma refreshed_token_not_persisted :
  exists service h',
    sample_authorization stale_host = (Ok service, h') /\
    token (credentials service) = Some "new" /\
    (forall data, ~ In (Dump data) (events h')) /\
    token_pickle h' = token_pickle stale_host /\
    token_pickle h' <> Some (sample_dumps (credentials service)).
Proof.
  do 2 eexists. split; [vm_compute; reflexivity|].
  split; [reflexivity|]. split; [|split].
  - intros data [H|[H|[]]]; discriminate H.
  - reflexivity.
  - vm_compute. discriminate.
Qed.

(** C4, on [revoked_host]. The refresh fails and [authorization] raises:
    no handle is returned and the interactive flow, which would have
    succeeded, is not run. *)
Lemma failed_refresh_no_fallback :
  consent revoked_host = Some fresh_credentials /\
  (forall service h', sample_authorization revoked_host <> (Ok service, h')) /\
  fst (sample_authorization revoked_host) = Raise RefreshError /\
  events (snd (sample_authorization revoked_host)) = [Refresh old_credentials].
Proof.
  split; [reflexivity|]. split; [|split; reflexivity].
  intros service h' H. vm_compute in H. discriminate H.
Qed.

(* ===================================================================== *)
(** * What [upload] sends, whatever the drive holds *)
(* ===================================================================== *)

Section Sending.

Variable P : Request -> bool.

Lemma appends_refl (w : World) : appends P w w.
Proof. exists []. split; [now rewrite app_nil_r | reflexivity]. Qed.

Lemma appends_trans (w1 w2 w3 : World) :
  appends P w1 w2 -> appends P w2 w3 -> appends P w1 w3.
Proof.
  intros [l [El Hl]] [k [Ek Hk]]. exists (l ++ k)%list. split.
  - now rewrite Ek, El, app_assoc.
  - now rewrite forallb_app, Hl, Hk.
Qed.

Lemma appends_record (q : Request) (w : World) :
  P q = true -> appends P w (record q w).
Proof. intros H. exists [q]. split; [reflexivity | simpl; now rewrite H]. Qed.

Lemma only_sends_ret (A : Type) (a : A) : only_sends P (ret a : M A).
Proof. intros w. apply appends_refl. Qed.

Lemma only_sends_raise (A : Type) (e : exn) : only_sends P (raise e : M A).
Proof. intros w. apply appends_refl. Qed.

Lemma only_sends_bind (A B : Type) (c : M A) (k : A -> M B) :
  only_sends P c -> (forall a, only_sends P (k a)) ->
  only_sends P (bind c k).
Proof.
  intros Hc Hk w. unfold bind. specialize (Hc w).
  destruct (c w) as [[a|e] w1]; simpl in *; [|exact Hc].
  eapply appends_trans; [exact Hc | apply Hk].
Qed.

Lemma only_sends_permissions_list (fileId : string) :
  P (PermissionsList fileId) = true -> only_sends P (permissions_list fileId).
Proof.
  intros H w. unfold permissions_list.
  destruct (find _ (drive_files w)); now apply appends_record.
Qed.

Lemma only_sends_files_create (name mimeType : string) :
  P (FilesCreate name mimeType) = true ->
  only_sends P (files_create name mimeType).
Proof.
  intros H w. exists [FilesCreate name mimeType].
  split; [reflexivity | simpl; now rewrite H].
Qed.

Lemma only_sends_permissions_create (fileId : string) (body : PermissionBody) :
  P (PermissionsCreate fileId body) = true ->
  only_sends P (permissions_create fileId body).
Proof. intros H w. now apply appends_record. Qed.

Lemma only_sends_datetime_now : only_sends P datetime_now.
Proof. intros w. exists []. split; [simpl; now rewrite app_nil_r | reflexivity]. Qed.

End Sending.

Section SetupRequests.

Variables folder_name file_name : string.
Variables user_email access : option string.

Lemma only_setup_scan (entries : list FileEntry) :
  only_sends is_setup (scan folder_name entries).
Proof.
  induction entries as [|file rest IH]; simpl.
  - apply only_sends_ret.
  - destruct (entry_name file =? folder_name); [|exact IH].
    apply only_sends_bind.
    + now apply only_sends_permissions_list.
    + intros perm. apply only_sends_ret.
Qed.

Lemma only_setup_reconcile_entry (fid : string) (user : Permission) :
  only_sends is_setup (reconcile_entry folder_name user_email access fid user).
Proof.
  unfold reconcile_entry.
  destruct (emailAddress user) as [address|]; [|apply only_sends_raise].
  destruct (py_eq address user_email && py_eq (role user) access);
    [apply only_sends_ret|].
  destruct (py_eq address user_email && negb (py_eq (role user) access)).
  - apply only_sends_bind; [apply only_sends_datetime_now|]. intros now.
    apply only_sends_bind; [now apply only_sends_files_create|]. intros folder.
    apply only_sends_bind; [now apply only_sends_permissions_create|].
    intros _. apply only_sends_ret.
  - apply only_sends_bind; [now apply only_sends_permissions_create|].
    intros _. apply only_sends_ret.
Qed.

Lemma only_setup_reconcile (shared_users : list Permission) (fid : string) :
  only_sends is_setup (reconcile folder_name user_email access fid shared_users).
Proof.
  revert fid. induction shared_users as [|user rest IH]; intros fid; simpl.
  - apply only_sends_ret.
  - apply only_sends_bind; [apply only_setup_reconcile_entry | exact IH].
Qed.

Lemma only_setup_create_folder :
  only_sends is_setup (create_folder folder_name user_email access).
Proof.
  unfold create_folder.
  apply only_sends_bind; [now apply only_sends_files_create|]. intros folder.
  apply only_sends_bind; [|intros _; apply only_sends_ret].
  destruct (truthy user_email && truthy access);
    [now apply only_sends_permissions_create | apply only_sends_ret].
Qed.

Lemma only_setup_share_folder (fid : string) (shared_users : list Permission) :
  only_sends is_setup
             (share_folder folder_name user_email access fid shared_users).
Proof.
  destruct shared_users as [|user rest].
  - unfold share_folder.
    apply only_sends_bind; [|intros _; apply only_sends_ret].
    destruct (truthy user_email && truthy access);
      [now apply only_sends_permissions_create | apply only_sends_ret].
  - apply only_setup_reconcile.
Qed.

(** The requests of a run: the listing, then requests about folders
    and permissions, then the upload of the file when nothing raised. *)
Lemma upload_shape (w : World) :
  exists mid,
    forallb is_setup mid = true /\
    match upload folder_name file_name user_email access w with
    | (Ok _, w') =>
        exists parent,
          issued w w'
          = (FilesList folder_query None :: mid
             ++ [FilesCreateMedia file_name [parent] (file_mime file_name)])%list
    | (Raise _, w') => issued w w' = FilesList folder_query None :: mid
    end.
Proof.
  unfold upload, lookup. unfold bind at 1 2 3. unfold files_list.
  pose proof (only_setup_scan (files (list_page None w))
                (record (FilesList folder_query None) w)) as [l1 [E1 H1]].
  destruct (scan folder_name (files (list_page None w))
                 (record (FilesList folder_query None) w))
    as [[found|e] w1]; simpl in E1.
  - match goal with
    | |- context [let (_, _) := ?c w1 in _] => set (phase := c)
    end.
    assert (Hphase : only_sends is_setup phase).
    { subst phase.
      destruct (negb (truthy (fst found))); [apply only_setup_create_folder|].
      destruct (fst found);
        [apply only_setup_share_folder | apply only_setup_create_folder]. }
    pose proof (Hphase w1) as [l2 [E2 H2]].
    destruct (phase w1) as [[parent|e] w2]; simpl in E2.
    + exists (l1 ++ l2)%list. split; [now rewrite forallb_app, H1, H2|].
      unfold files_create_media. cbv beta iota.
      exists parent. apply issued_log. simpl.
      rewrite E2, E1. simpl. now rewrite <- !app_assoc.
    + exists (l1 ++ l2)%list. split; [now rewrite forallb_app, H1, H2|].
      cbv beta iota.
      apply issued_log. rewrite E2, E1. simpl. now rewrite <- !app_assoc.
  - exists l1. split; [exact H1|]. cbv beta iota.
    apply issued_log. rewrite E1. simpl. now rewrite <- app_assoc.
Qed.

End SetupRequests.

Lemma forallb_weaken (A : Type) (p q : A -> bool) (l : list A) :
  (forall a, p a = true -> q a = true) ->
  forallb p l = true -> forallb q l = true.
Proof.
  intros H. induction l as [|a l IH]; simpl; trivial.
  intros E. apply andb_true_iff in E. destruct E as [Ea El].
  now rewrite (H a Ea), (IH El).
Qed.

(** X1. Whatever the drive holds and whatever is requested, and whether
    the run ends or raises, [upload] sends no request that changes or
    removes a grant. *)
Theorem upload_never_alters_grants
    (folder_name file_name : string) (user_email access : option string)
    (w : World) :
  forallb (fun q => negb (alters_grant q))
          (issued w (snd (upload folder_name file_name user_email access w)))
  = true.
Proof.
  destruct (upload_shape folder_name file_name user_email access w)
    as [mid [Hmid Hrun]].
  assert (Hweak : forallb (fun q => negb (alters_grant q)) mid = true).
  { revert Hmid. apply forallb_weaken. now intros []. }
  destruct (upload folder_name file_name user_email access w) as [[u|e] w'].
  - destruct Hrun as [parent E]. simpl. rewrite E. simpl.
    now rewrite forallb_app, Hweak.
  - simpl. rewrite Hrun. simpl. exact Hweak.
Qed.

(** X2. Every run sends exactly one listing request, as its first
    request, for the folders and without a page token. *)
Theorem upload_lists_once
    (folder_name file_name : string) (user_email access : option string)
    (w : World) :
  exists rest,
    issued w (snd (upload folder_name file_name user_email access w))
    = FilesList folder_query None :: rest /\
    forallb (fun q => negb (is_listing q)) rest = true.
Proof.
  destruct (upload_shape folder_name file_name user_email access w)
    as [mid [Hmid Hrun]].
  assert (Hweak : forallb (fun q => negb (is_listing q)) mid = true).
  { revert Hmid. apply forallb_weaken. now intros []. }
  destruct (upload folder_name file_name user_email access w) as [[u|e] w'].
  - destruct Hrun as [parent E]. simpl. rewrite E. eexists. split; [reflexivity|].
    now rewrite forallb_app, Hweak.
  - simpl. rewrite Hrun. eexists. split; [reflexivity | exact Hweak].
Qed.

(** X3. A run that ends has uploaded the file once, as its last
    request, with one parent and the mime type derived from the name; a
    run that raises has not uploaded the file. *)
Theorem upload_media_last
    (folder_name file_name : string) (user_email access : option string)
    (w : World) :
  match upload folder_name file_name user_email access w with
  | (Ok _, w') =>
      exists before parent,
        issued w w'
        = (before
           ++ [FilesCreateMedia file_name [parent] (file_mime file_name)])%list
        /\ forallb (fun q => negb (is_media q)) before = true
  | (Raise _, w') =>
      forallb (fun q => negb (is_media q)) (issued w w') = true
  end.
Proof.
  destruct (upload_shape folder_name file_name user_email access w)
    as [mid [Hmid Hrun]].
  assert (Hweak : forallb (fun q => negb (is_media q)) mid = true).
  { revert Hmid. apply forallb_weaken. now intros []. }
  destruct (upload folder_name file_name user_email access w) as [[u|e] w'].
  - destruct Hrun as [parent E].
    exists (FilesList folder_query None :: mid), parent.
    split; [exact E | exact Hweak].
  - rewrite Hrun. exact Hweak.
Qed.

(* ===================================================================== *)
(** * The folder the file is uploaded into *)
(* ===================================================================== *)

Section ParentFolder.

Variables folder_name file_name : string.
Variables user_email access : option string.

Lemma count_app (A : Type) (p : A -> bool) (l k : list A) :
  count p (l ++ k)%list = count p l + count p k.
Proof. unfold count. now rewrite filter_app, length_app. Qed.

Lemma resolves_refl (fid : string) (w : World) : resolves fid w fid w.
Proof.
  exists []. unfold count. simpl.
  split; [now rewrite app_nil_r|]. split; [reflexivity|].
  split; [lia | reflexivity].
Qed.

Lemma resolves_trans (f0 f1 f2 : string) (w0 w1 w2 : World) :
  resolves f0 w0 f1 w1 -> resolves f1 w1 f2 w2 -> resolves f0 w0 f2 w2.
Proof.
  intros [r1 [L1 [M1 [C1 F1]]]] [r2 [L2 [M2 [C2 F2]]]].
  exists (r1 ++ r2)%list. rewrite count_app.
  split; [now rewrite L2, L1, app_assoc|].
  split; [congruence|]. split; [lia|].
  rewrite M1, C1 in F2.
  destruct (count is_folder_create r2) as [|k2].
  - rewrite Nat.add_0_r. congruence.
  - rewrite Nat.add_succ_r. rewrite F2. f_equal. lia.
Qed.

Lemma reconcile_entry_resolves (fid f1 : string) (user : Permission)
    (w w1 : World) :
  reconcile_entry folder_name user_email access fid user w = (Ok f1, w1) ->
  resolves fid w f1 w1.
Proof.
  unfold reconcile_entry.
  destruct (emailAddress user) as [address|]; [|discriminate].
  destruct (py_eq address user_email && py_eq (role user) access).
  { intros E. inversion E. subst. apply resolves_refl. }
  destruct (py_eq address user_email && negb (py_eq (role user) access)).
  - unfold bind, datetime_now, files_create, permissions_create, record, ret.
    simpl. intros E. inversion E. subst. clear E.
    eexists [FilesCreate _ mime; PermissionsCreate _ _].
    unfold count. simpl.
    split; [now rewrite <- app_assoc|]. split; [reflexivity|].
    split; [lia | now rewrite Nat.add_0_r].
  - unfold bind, permissions_create, record, ret. simpl.
    intros E. inversion E. subst. clear E.
    eexists [PermissionsCreate _ _]. unfold count. simpl.
    split; [reflexivity|]. split; [reflexivity|].
    split; [lia | reflexivity].
Qed.

Lemma reconcile_resolves (shared_users : list Permission)
    (fid fid' : string) (w w' : World) :
  reconcile folder_name user_email access fid shared_users w = (Ok fid', w') ->
  resolves fid w fid' w'.
Proof.
  revert fid w. induction shared_users as [|user rest IH]; intros fid w; simpl.
  - intros E. inversion E. apply resolves_refl.
  - unfold bind.
    destruct (reconcile_entry folder_name user_email access fid user w)
      as [[f1|e] w1] eqn:E1; [|discriminate].
    intros E. eapply resolves_trans.
    + eapply reconcile_entry_resolves. exact E1.
    + apply IH. exact E.
Qed.

Lemma share_folder_resolves (shared_users : list Permission)
    (fid fid' : string) (w w' : World) :
  share_folder folder_name user_email access fid shared_users w
    = (Ok fid', w') ->
  resolves fid w fid' w'.
Proof.
  destruct shared_users as [|user rest]; [|apply reconcile_resolves].
  unfold share_folder, bind.
  destruct (truthy user_email && truthy access);
    unfold permissions_create, record, ret; simpl;
    intros E; inversion E; subst; clear E.
  - eexists [PermissionsCreate _ _]. unfold count. simpl.
    split; [reflexivity|]. split; [reflexivity|].
    split; [lia | reflexivity].
  - apply resolves_refl.
Qed.

(** A folder created because none was found is the current folder,
    whatever was current before. *)
Lemma create_folder_resolves (fid fid' : string) (w w' : World) :
  create_folder folder_name user_email access w = (Ok fid', w') ->
  resolves fid w fid' w'.
Proof.
  unfold create_folder, bind, files_create.
  destruct (truthy user_email && truthy access);
    unfold permissions_create, record, ret; simpl;
    intros E; inversion E; subst; clear E.
  - eexists [FilesCreate _ _; PermissionsCreate _ _]. unfold count. simpl.
    split; [now rewrite <- app_assoc|]. split; [reflexivity|].
    split; [lia | now rewrite Nat.add_0_r].
  - eexists [FilesCreate _ _]. unfold count. simpl.
    split; [reflexivity|]. split; [reflexivity|].
    split; [lia | now rewrite Nat.add_0_r].
Qed.

(** The scan creates nothing. *)
Lemma scan_resolves (entries : list FileEntry) (fid : string)
    (r : result exn (option string * list Permission)) (w w' : World) :
  scan folder_name entries w = (r, w') -> resolves fid w fid w'.
Proof.
  induction entries as [|file rest IH]; simpl.
  - intros E. inversion E. apply resolves_refl.
  - destruct (entry_name file =? folder_name); [|exact IH].
    unfold bind, permissions_list, record, ret.
    destruct (find _ (drive_files w)); intros E; inversion E; subst; clear E;
      (eexists [PermissionsList _]; unfold count; simpl;
       split; [reflexivity|]; split; [reflexivity|];
       split; [lia | reflexivity]).
Qed.

End ParentFolder.

Lemma scan_creates_nothing (folder_name : string) (entries : list FileEntry)
    (r : result exn (option string * list Permission)) (w w' : World) :
  scan folder_name entries w = (r, w') ->
  exists l, log w' = (log w ++ l)%list /\ count is_folder_create l = 0 /\
            mint w' = mint w /\ created w' = created w.
Proof.
  induction entries as [|file rest IH]; simpl.
  - intros E. inversion E. exists []. now rewrite app_nil_r.
  - destruct (entry_name file =? folder_name); [|exact IH].
    unfold bind, permissions_list, record, ret.
    destruct (find _ (drive_files w)); intros E; inversion E; subst; clear E;
      now exists [PermissionsList (entry_id file)].
Qed.

Lemma lookup_creates_nothing (folder_name : string)
    (r : result exn (option string * list Permission)) (w w' : World) :
  lookup folder_name w = (r, w') ->
  exists l, log w' = (log w ++ l)%list /\ count is_folder_create l = 0 /\
            mint w' = mint w /\ created w' = created w.
Proof.
  unfold lookup, bind, files_list. intros E.
  apply scan_creates_nothing in E. destruct E as [l [El [Cl [Ml Kl]]]].
  exists (FilesList folder_query None :: l). simpl in *.
  split; [now rewrite El, <- app_assoc|]. now repeat split.
Qed.

(** X4. When a run ends, the file has gone into the folder created last
    during the run, and into the folder the lookup found when the run
    created none: the file is never uploaded without a folder that the
    remote has named. *)
Theorem upload_into_newest_folder
    (folder_name file_name : string) (user_email access : option string)
    (w w' : World) :
  upload folder_name file_name user_email access w = (Ok tt, w') ->
  exists parent,
    In (FilesCreateMedia file_name [parent] (file_mime file_name))
       (issued w w') /\
    match count is_folder_create (issued w w') with
    | O => exists shared_users w1,
             lookup folder_name w = (Ok (Some parent, shared_users), w1)
    | S k => parent = mint w (created w + k)
    end.
Proof.
  unfold upload. unfold bind at 1 2.
  destruct (lookup folder_name w) as [[[fi su]|e] w1] eqn:El; [|discriminate].
  destruct (lookup_creates_nothing _ _ _ _ El) as [l0 [L0 [C0 [M0 K0]]]].
  cbn [fst snd].
  assert (Hcreate : forall parent w2,
             create_folder folder_name user_email access w1 = (Ok parent, w2) ->
             exists reqs, log w2 = (log w1 ++ reqs)%list /\
                          count is_folder_create reqs = 1 /\
                          parent = mint w1 (created w1)).
  { unfold create_folder, bind, files_create.
    destruct (truthy user_email && truthy access);
      unfold permissions_create, record, ret; simpl;
      intros parent w2 E; inversion E; subst; clear E.
    - eexists [FilesCreate _ _; PermissionsCreate _ _]. simpl.
      now rewrite <- app_assoc.
    - now eexists [FilesCreate _ _]. }
  assert (Hfinish : forall parent w2 reqs,
             log w2 = (log w1 ++ reqs)%list ->
             files_create_media file_name [parent] (file_mime file_name) w2
               = (Ok tt, w') ->
             issued w w'
             = (l0 ++ reqs
                ++ [FilesCreateMedia file_name [parent]
                                     (file_mime file_name)])%list).
  { intros parent w2 reqs L2 E. unfold files_create_media in E.
    inversion E. apply issued_log. simpl. rewrite L2, L0.
    now rewrite <- !app_assoc. }
  assert (Hnew : forall parent w2,
             create_folder folder_name user_email access w1 = (Ok parent, w2) ->
             files_create_media file_name [parent] (file_mime file_name) w2
               = (Ok tt, w') ->
             exists parent0,
               In (FilesCreateMedia file_name [parent0] (file_mime file_name))
                  (issued w w') /\
               match count is_folder_create (issued w w') with
               | O => exists shared_users w0,
                        (@Ok exn _ (fi, su), w1)
                        = (Ok (Some parent0, shared_users), w0)
               | S k => parent0 = mint w (created w + k)
               end).
  { intros parent w2 Ec Em.
    destruct (Hcreate parent w2 Ec) as [reqs [L2 [C2 Ep]]].
    exists parent. rewrite (Hfinish parent w2 reqs L2 Em).
    split; [apply in_or_app; right; apply in_or_app; right; now left|].
    rewrite !count_app, C0, C2.
    replace (count is_folder_create
               [FilesCreateMedia file_name [parent] (file_mime file_name)])
      with 0 by reflexivity.
    simpl. rewrite Ep, M0, K0. f_equal. lia. }
  destruct (negb (truthy fi)) eqn:Et.
  - destruct (create_folder folder_name user_email access w1)
      as [[parent|e] w2] eqn:Ec; [|discriminate].
    intros Em. apply (Hnew parent w2 eq_refl Em).
  - destruct fi as [fid|].
    + destruct (share_folder folder_name user_email access fid su w1)
        as [[parent|e] w2] eqn:Es; [|discriminate].
      intros Em.
      destruct (share_folder_resolves _ _ _ _ _ _ _ _ Es)
        as [reqs [L2 [M2 [C2 Ep]]]].
      exists parent. rewrite (Hfinish parent w2 reqs L2 Em).
      split; [apply in_or_app; right; apply in_or_app; right; now left|].
      rewrite !count_app, C0. simpl.
      replace (count is_folder_create
                 [FilesCreateMedia file_name [parent] (file_mime file_name)])
        with 0 by reflexivity.
      rewrite Nat.add_0_r.
      destruct (count is_folder_create reqs) as [|k].
      * exists su, w1. now rewrite Ep.
      * now rewrite Ep, M0, K0.
    + destruct (create_folder folder_name user_email access w1)
        as [[parent|e] w2] eqn:Ec; [|discriminate].
      intros Em. apply (Hnew parent w2 eq_refl Em).
Qed.

(* ===================================================================== *)
(** * The loop over the entries, in general *)
(* ===================================================================== *)

Section LoopFacts.

Variable folder_name : string.
Variables user_email access : option string.

Lemma count_cons (A : Type) (p : A -> bool) (a : A) (l : list A) :
  count p (a :: l) = (if p a then 1 else 0) + count p l.
Proof. unfold count. simpl. now destruct (p a). Qed.

(** An entry with an address is handled without raising; what is sent
    depends on which of the three tests it passes. *)
Lemma reconcile_entry_with_address (fid : string) (user : Permission)
    (w : World) :
  emailAddress user <> None ->
  exists fid' w' reqs,
    reconcile_entry folder_name user_email access fid user w = (Ok fid', w') /\
    log w' = (log w ++ reqs)%list /\
    count is_folder_create reqs
    = (if other_role user_email access user then 1 else 0) /\
    count is_permission_create reqs
    = (if same_share user_email access user then 0 else 1).
Proof.
  intros Ha. unfold reconcile_entry, same_share, other_role.
  destruct (emailAddress user) as [address|]; [clear Ha | contradiction].
  destruct (py_eq address user_email); destruct (py_eq (role user) access);
    simpl.
  - exists fid, w, []. now rewrite app_nil_r.
  - unfold bind, datetime_now, files_create, permissions_create, record, ret.
    simpl. do 2 eexists. eexists [FilesCreate _ _; PermissionsCreate _ _].
    split; [reflexivity|]. split; [now rewrite <- app_assoc|]. now split.
  - unfold bind, permissions_create, record, ret. simpl.
    do 2 eexists. eexists [PermissionsCreate _ _]. now repeat split.
  - unfold bind, permissions_create, record, ret. simpl.
    do 2 eexists. eexists [PermissionsCreate _ _]. now repeat split.
Qed.

Lemma reconcile_with_addresses (l : list Permission) (fid : string)
    (w : World) :
  Forall (fun u => emailAddress u <> None) l ->
  exists fid' w' reqs,
    reconcile folder_name user_email access fid l w = (Ok fid', w') /\
    log w' = (log w ++ reqs)%list /\
    count is_folder_create reqs = count (other_role user_email access) l /\
    count is_permission_create reqs + count (same_share user_email access) l
    = length l.
Proof.
  intros H. revert fid w.
  induction H as [|user l Hu _ IH]; intros fid w.
  - exists fid, w, []. simpl. now rewrite app_nil_r.
  - destruct (reconcile_entry_with_address fid user w Hu)
      as [f1 [w1 [r1 [E1 [L1 [F1 P1]]]]]].
    destruct (IH f1 w1) as [f2 [w2 [r2 [E2 [L2 [F2 P2]]]]]].
    exists f2, w2, (r1 ++ r2)%list.
    split; [simpl; unfold bind; now rewrite E1|].
    split; [now rewrite L2, L1, app_assoc|].
    rewrite !count_app, !count_cons, F1, F2. split; [reflexivity|].
    rewrite P1. simpl length.
    destruct (same_share user_email access user); lia.
Qed.

End LoopFacts.

(** X5. The loop raises exactly when an entry lacks an address, and
    then with [KeyError] for the key [emailAddress]; over entries that
    all have one it ends. *)
Theorem reconcile_raises_on_missing_address
    (folder_name : string) (user_email access : option string)
    (shared_users : list Permission) (fid : string) (w : World) :
  match fst (reconcile folder_name user_email access fid shared_users w) with
  | Ok _ => Forall (fun u => emailAddress u <> None) shared_users
  | Raise e =>
      e = KeyError "emailAddress" /\
      Exists (fun u => emailAddress u = None) shared_users
  end.
Proof.
  revert fid w.
  induction shared_users as [|user rest IH]; intros fid w; simpl.
  - constructor.
  - unfold bind.
    destruct (emailAddress user) as [address|] eqn:Ea.
    + assert (Hu : emailAddress user <> None) by (rewrite Ea; discriminate).
      destruct (reconcile_entry_with_address folder_name user_email access
                  fid user w Hu) as [f1 [w1 [r1 [E1 _]]]].
      rewrite E1. specialize (IH f1 w1).
      destruct (reconcile folder_name user_email access f1 rest w1)
        as [[f2|e] w2]; simpl in *.
      * now constructor.
      * destruct IH as [He Hex]. split; [exact He | now right].
    + unfold reconcile_entry. rewrite Ea. simpl. split; [reflexivity|].
      now left.
Qed.

(** X6. Over entries that all have an address the loop creates one
    folder per entry that carries the requested address with another
    role, and asks for one grant per entry that does not carry exactly
    the requested address and role. *)
Theorem reconcile_counts
    (folder_name : string) (user_email access : option string)
    (shared_users : list Permission) (fid : string) (w : World) :
  Forall (fun u => emailAddress u <> None) shared_users ->
  exists fid' w',
    reconcile folder_name user_email access fid shared_users w
    = (Ok fid', w') /\
    count is_folder_create (issued w w')
    = count (other_role user_email access) shared_users /\
    count is_permission_create (issued w w')
      + count (same_share user_email access) shared_users
    = length shared_users.
Proof.
  intros H.
  destruct (reconcile_with_addresses folder_name user_email access
              shared_users fid w H) as [fid' [w' [reqs [E [L [F P]]]]]].
  exists fid', w'. rewrite (issued_log w w' reqs L). now repeat split.
Qed.

(* ===================================================================== *)
(** * What the lookup returns *)
(* ===================================================================== *)

Section LookupResults.

Variable folder_name : string.

Lemma find_id_some (l : list RemoteFile) (f : RemoteFile) :
  In f l -> exists g, find (fun x => rf_id x =? rf_id f) l = Some g.
Proof.
  intros Hin. destruct (find (fun x => rf_id x =? rf_id f) l) as [g|] eqn:E.
  - now exists g.
  - apply (find_none _ _ E) in Hin. now rewrite String.eqb_refl in Hin.
Qed.

Lemma scan_first_named (entries : list FileEntry) (w : World) :
  (forall e, In e entries ->
             exists f, In f (drive_files w) /\ entry_id e = rf_id f) ->
  exists shared_users w',
    scan folder_name entries w
    = (Ok (first_named folder_name entries, shared_users), w').
Proof.
  unfold first_named.
  induction entries as [|file rest IH]; intros Hall; simpl.
  - now exists [], w.
  - destruct (entry_name file =? folder_name).
    + destruct (Hall file (or_introl eq_refl)) as [f [Hin Eid]].
      destruct (find_id_some _ _ Hin) as [g Eg].
      rewrite <- Eid in Eg.
      unfold bind, permissions_list. rewrite Eg. simpl.
      now do 2 eexists.
    + apply IH. intros e He. apply Hall. now right.
Qed.

Lemma scan_shared_users (entries : list FileEntry) (w w' : World)
    (fid : string) (shared_users : list Permission) :
  scan folder_name entries w = (Ok (Some fid, shared_users), w') ->
  exists f,
    In f (drive_files w) /\ rf_id f = fid /\
    shared_users
    = filter (fun i => negb (role i =? "owner")) (rf_permissions f).
Proof.
  induction entries as [|file rest IH]; simpl; [discriminate|].
  destruct (entry_name file =? folder_name); [|exact IH].
  unfold bind, permissions_list, ret.
  destruct (find _ (drive_files w)) as [f|] eqn:Ef; [|discriminate].
  intros E. inversion E. subst. clear E.
  apply find_some in Ef. destruct Ef as [Hin Eid].
  exists f. repeat split; trivial. now apply String.eqb_eq.
Qed.

End LookupResults.

(** X7. The lookup never raises: the permissions it asks for are those
    of a listed folder.  The folder it returns is the first entry of
    the first page of the listing that bears the requested name, and it
    returns none when that page has no such entry. *)
Theorem lookup_first_match_on_first_page (folder_name : string) (w : World) :
  exists shared_users w',
    lookup folder_name w
    = (Ok (first_named folder_name (files (list_page None w)), shared_users),
       w').
Proof.
  unfold lookup, bind, files_list.
  apply scan_first_named. intros e He. apply in_list_page in He.
  destruct He as [f [Hin [_ ->]]]. now exists f.
Qed.

(** X8. The entries the lookup hands to the sharing phase are the
    grants of the resource that has the returned id, in the remote's
    order, without those whose role is [owner]. *)
Theorem lookup_drops_owner
    (folder_name fid : string) (shared_users : list Permission)
    (w w' : World) :
  lookup folder_name w = (Ok (Some fid, shared_users), w') ->
  Forall (fun u => role u <> "owner") shared_users /\
  exists f,
    In f (drive_files w) /\ rf_id f = fid /\
    shared_users
    = filter (fun i => negb (role i =? "owner")) (rf_permissions f).
Proof.
  unfold lookup, bind, files_list. intros E.
  apply scan_shared_users in E. destruct E as [f [Hin [Eid Esu]]].
  split; [|now exists f].
  rewrite Esu. apply Forall_forall. intros u Hu.
  apply filter_In in Hu. destruct Hu as [_ Hrole].
  apply negb_true_iff, String.eqb_neq in Hrole. exact Hrole.
Qed.

(** X9. A folder found with no grant besides the owner's: [upload] asks
    for one grant on it when an address and a role are both given (and
    not empty), for none otherwise, creates no folder, and uploads the
    file into the folder found. *)
Theorem unshared_folder_shared_once
    (folder_name file_name fid : string) (user_email access : option string)
    (w w1 : World) :
  lookup folder_name w = (Ok (Some fid, []), w1) ->
  fid <> "" ->
  exists w',
    upload folder_name file_name user_email access w = (Ok tt, w') /\
    issued w w'
    = ([FilesList folder_query None; PermissionsList fid]
       ++ (if truthy user_email && truthy access
           then [PermissionsCreate fid (permission_body user_email access)]
           else [])
       ++ [FilesCreateMedia file_name [fid] (file_mime file_name)])%list.
Proof.
  intros E Hfid. rewrite (upload_found _ _ _ _ _ _ _ _ E Hfid).
  unfold share_folder, bind.
  destruct (truthy user_email && truthy access); simpl;
    (eexists; split; [reflexivity|]);
    apply issued_log; simpl; now rewrite <- !app_assoc.
Qed.

(** X10. A folder found whose first entry without an address comes
    after entries that carry other addresses than the requested one:
    [upload] raises [KeyError]; the grants asked for on account of the
    earlier entries have been sent, and the file is not uploaded. *)
Theorem upload_stops_at_missing_address
    (folder_name file_name fid : string) (user_email access : option string)
    (pre post : list Permission) (user : Permission) (w w1 : World) :
  lookup folder_name w = (Ok (Some fid, pre ++ user :: post)%list, w1) ->
  fid <> "" ->
  Forall (fun u => exists address,
              emailAddress u = Some address /\
              py_eq address user_email = false) pre ->
  emailAddress user = None ->
  exists w',
    upload folder_name file_name user_email access w
    = (Raise (KeyError "emailAddress"), w') /\
    issued w w'
    = ([FilesList folder_query None; PermissionsList fid]
       ++ repeat (PermissionsCreate fid (permission_body user_email access))
                 (length pre))%list.
Proof.
  intros E Hfid Hpre Hnone. rewrite (upload_found _ _ _ _ _ _ _ _ E Hfid).
  unfold bind at 1.
  rewrite share_folder_nonempty
    by (intros C; symmetry in C; now apply app_cons_not_nil in C).
  rewrite reconcile_app. unfold bind at 1.
  rewrite (reconcile_others folder_name user_email access pre fid _ Hpre).
  cbn [reconcile]. unfold bind at 1. unfold reconcile_entry at 1.
  rewrite Hnone. simpl.
  eexists; split; [reflexivity|].
  apply issued_log. simpl. now rewrite <- !app_assoc.
Qed.

(* ===================================================================== *)
(** * The mime table and the name of the new folder, at the edges *)
(* ===================================================================== *)

(** X11. The three suffixes are given the types [audio / wav],
    [audio / mpeg] and [audio / flac], in this order. *)
Theorem file_mime_table (file_name : string) :
  (ends_with ".wav" file_name -> file_mime file_name = "audio / wav") /\
  (ends_with ".mp3" file_name -> file_mime file_name = "audio / mpeg") /\
  (ends_with ".flac" file_name -> file_mime file_name = "audio / flac").
Proof.
  split; [|split]; intros H.
  - apply slice_last_ends_with in H. simpl in H.
    unfold file_mime. now rewrite H.
  - apply slice_last_ends_with in H. simpl in H.
    unfold file_mime. now rewrite H.
  - apply slice_last_ends_with in H. simpl String.length in H.
    unfold file_mime.
    rewrite <- (slice_last_slice_last 4 5) by repeat constructor.
    now rewrite H.
Qed.

Lemma file_mime_table_witness :
  file_mime "song.wav" = "audio / wav" /\
  file_mime "track.mp3" = "audio / mpeg" /\
  file_mime "lossless.flac" = "audio / flac".
Proof.
  split; [|split].
  - apply (proj1 (file_mime_table "song.wav")). now exists "song".
  - apply (proj1 (proj2 (file_mime_table "track.mp3"))). now exists "track".
  - apply (proj2 (proj2 (file_mime_table "lossless.flac"))).
    now exists "lossless".
Defined.

(** X12. A name of fewer than four characters has no room for a suffix
    of the table and is given the image type. *)
Theorem file_mime_short_name (file_name : string) :
  String.length file_name < 4 -> file_mime file_name = "image / jpeg".
Proof.
  intros Hlen. unfold file_mime.
  rewrite (slice_last_all 4), (slice_last_all 5) by lia.
  destruct (String.eqb_spec file_name ".wav") as [E|_];
    [rewrite E in Hlen; simpl in Hlen; lia|].
  destruct (String.eqb_spec file_name ".mp3") as [E|_];
    [rewrite E in Hlen; simpl in Hlen; lia|].
  destruct (String.eqb_spec file_name ".flac") as [E|_];
    [rewrite E in Hlen; simpl in Hlen; lia|].
  reflexivity.
Qed.

Lemma file_mime_short_name_witness : file_mime "a.b" = "image / jpeg".
Proof. apply (file_mime_short_name "a.b"). simpl. lia. Defined.

Lemma append_empty (s : string) : s ++ "" = s.
Proof. induction s as [|c s IH]; simpl; congruence. Qed.

(** On a whole second the rendering has no fractional part and the
    trimming leaves the date, a space and the tens digit of the hour. *)
Lemma trim_whole_seconds (d : datetime) :
  microsecond d = 0%N ->
  slice_but_last 7 (str_datetime d)
  = fixed 4 (year d) ++ "-" ++ fixed 2 (month d) ++ "-" ++ fixed 2 (day d)
    ++ " " ++ fixed 1 (hour d / 10).
Proof.
  intros E. unfold str_datetime. rewrite E. simpl N.eqb. cbv iota.
  rewrite append_empty. unfold str_seconds.
  set (rest := String (digit (hour d)) "" ++ ":" ++ fixed 2 (minute d)
               ++ ":" ++ fixed 2 (second d)).
  replace 7 with (String.length rest)
    by (subst rest; now rewrite !length_append, !length_fixed).
  set (front := fixed 4 (year d) ++ "-" ++ fixed 2 (month d) ++ "-"
                ++ fixed 2 (day d) ++ " " ++ fixed 1 (hour d / 10)).
  transitivity (slice_but_last (String.length rest) (front ++ rest)).
  - reflexivity.
  - apply slice_but_last_app.
Qed.

(** X13. An entry with the requested address and another role, met on
    a whole second: the folder created is named after the folder
    found, a space, the date, a space and the tens digit of the hour;
    the time of day is lost. *)
Theorem fork_name_on_whole_second
    (folder_name : string) (user_email access : option string)
    (fid address : string) (user : Permission) (w : World) :
  emailAddress user = Some address ->
  py_eq address user_email = true ->
  py_eq (role user) access = false ->
  microsecond (clock w (ticks w)) = 0%N ->
  issued w (snd (reconcile_entry folder_name user_email access fid user w))
  = [FilesCreate
       (folder_name ++ " "
        ++ fixed 4 (year (clock w (ticks w))) ++ "-"
        ++ fixed 2 (month (clock w (ticks w))) ++ "-"
        ++ fixed 2 (day (clock w (ticks w))) ++ " "
        ++ fixed 1 (hour (clock w (ticks w)) / 10))
       mime;
     PermissionsCreate (mint w (created w))
                       (permission_body user_email access)].
Proof.
  intros Ea Eu Er Eus.
  rewrite (reconcile_entry_fork folder_name user_email access fid user w
             address Ea Eu Er).
  rewrite (trim_whole_seconds _ Eus).
  now apply issued_log.
Qed.

(* ===================================================================== *)
(** * [authorization]: the other branches, and runs in sequence *)
(* ===================================================================== *)

Section AuthorizationBranches.

Variable pickle_loads : list Byte.byte -> option Credentials.
Variable pickle_dumps : Credentials -> list Byte.byte.
Variables (client_secret_file api_name api_version : string).
Variable (scope : list string).

Local Abbreviation run :=
  (authorization pickle_loads pickle_dumps
                 client_secret_file api_name api_version scope).

Lemma taken_events (h h' : Host) (l : list AuthEvent) :
  events h' = (events h ++ l)%list -> taken h h' = l.
Proof. intros E. unfold taken. rewrite E. apply skipn_length_app. Qed.

(** The [else] branch followed by [build]. *)
Lemma generate_then_build (h : Host) :
  (creds <- generate pickle_dumps client_secret_file scope ;;
   build api_name api_version creds) h
  = match consent h with
    | Some creds =>
        (Ok (mkResource api_name api_version creds),
         mkHost (Some (pickle_dumps creds)) (utcnow h) (refresh_grant h)
                (consent h)
                (events h ++
                 [RunLocalServer client_secret_file scope;
                  Dump (pickle_dumps creds);
                  Build (mkResource api_name api_version creds)])%list)
    | None =>
        (Raise FlowError, note (RunLocalServer client_secret_file scope) h)
    end.
Proof.
  unfold generate, bind, run_local_server, dump_token, build, note, ret.
  destruct h as [file now grant interactive steps]. simpl.
  destruct interactive as [creds|]; [|reflexivity].
  simpl. now rewrite <- !app_assoc.
Qed.

(** Without a token file [authorization] is the [else] branch. *)
Lemma authorization_without_file (h : Host) :
  token_pickle h = None ->
  run h = (creds <- generate pickle_dumps client_secret_file scope ;;
           build api_name api_version creds) h.
Proof.
  intros Hfile. unfold authorization, bind at 1 2, load_token.
  now rewrite Hfile.
Qed.

(** With a credential that is neither valid nor refreshable it is the
    [else] branch too. *)
Lemma authorization_unusable (h : Host) (data : list Byte.byte)
    (old : Credentials) :
  token_pickle h = Some data ->
  pickle_loads data = Some old ->
  valid (utcnow h) old = false ->
  expired (utcnow h) old && truthy (refresh_token old) = false ->
  run h = (creds <- generate pickle_dumps client_secret_file scope ;;
           build api_name api_version creds) h.
Proof.
  intros Hfile Hload Hvalid Hfresh.
  unfold authorization, bind at 1 2, load_token.
  rewrite Hfile, Hload. cbn iota beta. now rewrite Hvalid, Hfresh.
Qed.

End AuthorizationBranches.

(** X14. Without a token file, and with an interactive flow that ends
    with a credential, [authorization] runs the flow once, writes the
    credential to the token file and returns a handle bound to it. *)
Theorem first_run_stores_token
    (pickle_loads : list Byte.byte -> option Credentials)
    (pickle_dumps : Credentials -> list Byte.byte)
    (client_secret_file api_name api_version : string) (scope : list string)
    (h : Host) (creds : Credentials) :
  token_pickle h = None ->
  consent h = Some creds ->
  exists h',
    authorization pickle_loads pickle_dumps
                  client_secret_file api_name api_version scope h
    = (Ok (mkResource api_name api_version creds), h') /\
    token_pickle h' = Some (pickle_dumps creds) /\
    taken h h'
    = [RunLocalServer client_secret_file scope; Dump (pickle_dumps creds);
       Build (mkResource api_name api_version creds)].
Proof.
  intros Hfile Hflow.
  rewrite authorization_without_file by exact Hfile.
  rewrite generate_then_build, Hflow.
  eexists; split; [reflexivity|]. split; [reflexivity|].
  now apply taken_events.
Qed.

(** X15. A stored credential that is not valid and that the script does
    not refresh (it is not expired, or it has no refresh token) is
    replaced: the flow is run and the token file is overwritten with
    the credential the flow ends with. *)
Theorem unusable_token_replaced
    (pickle_loads : list Byte.byte -> option Credentials)
    (pickle_dumps : Credentials -> list Byte.byte)
    (client_secret_file api_name api_version : string) (scope : list string)
    (h : Host) (data : list Byte.byte) (old creds : Credentials) :
  token_pickle h = Some data ->
  pickle_loads data = Some old ->
  valid (utcnow h) old = false ->
  expired (utcnow h) old && truthy (refresh_token old) = false ->
  consent h = Some creds ->
  exists h',
    authorization pickle_loads pickle_dumps
                  client_secret_file api_name api_version scope h
    = (Ok (mkResource api_name api_version creds), h') /\
    token_pickle h' = Some (pickle_dumps creds) /\
    taken h h'
    = [RunLocalServer client_secret_file scope; Dump (pickle_dumps creds);
       Build (mkResource api_name api_version creds)].
Proof.
  intros Hfile Hload Hvalid Hfresh Hflow.
  rewrite (authorization_unusable _ _ _ _ _ _ _ _ _ Hfile Hload Hvalid Hfresh).
  rewrite generate_then_build, Hflow.
  eexists; split; [reflexivity|]. split; [reflexivity|].
  now apply taken_events.
Qed.

(** X16. When the interactive flow is needed and fails, [authorization]
    raises: the token file is left as it was and [build] is not
    reached. *)
Theorem failed_flow_is_raised
    (pickle_loads : list Byte.byte -> option Credentials)
    (pickle_dumps : Credentials -> list Byte.byte)
    (client_secret_file api_name api_version : string) (scope : list string)
    (h : Host) :
  token_pickle h = None \/
  (exists data old,
      token_pickle h = Some data /\ pickle_loads data = Some old /\
      valid (utcnow h) old = false /\
      expired (utcnow h) old && truthy (refresh_token old) = false) ->
  consent h = None ->
  authorization pickle_loads pickle_dumps
                client_secret_file api_name api_version scope h
  = (Raise FlowError, note (RunLocalServer client_secret_file scope) h).
Proof.
  intros [Hfile|[data [old [Hfile [Hload [Hvalid Hfresh]]]]]] Hflow.
  - rewrite authorization_without_file by exact Hfile.
    now rewrite generate_then_build, Hflow.
  - rewrite (authorization_unusable _ _ _ _ _ _ _ _ _
               Hfile Hload Hvalid Hfresh).
    now rewrite generate_then_build, Hflow.
Qed.

(** X17. A token file that does not unpickle makes [authorization]
    raise at once: no refresh, no flow and no write are attempted, so
    the file is not regenerated. *)
Theorem corrupt_token_is_raised
    (pickle_loads : list Byte.byte -> option Credentials)
    (pickle_dumps : Credentials -> list Byte.byte)
    (client_secret_file api_name api_version : string) (scope : list string)
    (h : Host) (data : list Byte.byte) :
  token_pickle h = Some data ->
  pickle_loads data = None ->
  authorization pickle_loads pickle_dumps
                client_secret_file api_name api_version scope h
  = (Raise UnpicklingError, h).
Proof.
  intros Hfile Hload. unfold authorization, bind, load_token.
  now rewrite Hfile, Hload.
Qed.

Section AuthorizationOutcomes.

Variable pickle_loads : list Byte.byte -> option Credentials.
Variable pickle_dumps : Credentials -> list Byte.byte.
Variables (client_secret_file api_name api_version : string).
Variable (scope : list string).

Local Abbreviation run :=
  (authorization pickle_loads pickle_dumps
                 client_secret_file api_name api_version scope).
Local Abbreviation handle := (mkResource api_name api_version).
Local Abbreviation flow := (RunLocalServer client_secret_file scope).

(** The six ways a call can go. *)
Lemma authorization_cases (h : Host) :
  exists r h',
    run h = (r, h') /\
    ((taken h h' = [] /\ token_pickle h' = token_pickle h /\
      r = Raise UnpicklingError) \/
     (exists c, taken h h' = [Build (handle c)] /\
                token_pickle h' = token_pickle h /\ r = Ok (handle c)) \/
     (exists c c', taken h h' = [Refresh c; Build (handle c')] /\
                   token_pickle h' = token_pickle h /\ r = Ok (handle c')) \/
     (exists c, taken h h' = [Refresh c] /\
                token_pickle h' = token_pickle h /\ r = Raise RefreshError) \/
     (exists c, taken h h' = [flow; Dump (pickle_dumps c); Build (handle c)] /\
                token_pickle h' = Some (pickle_dumps c) /\ r = Ok (handle c)) \/
     (taken h h' = [flow] /\ token_pickle h' = token_pickle h /\
      r = Raise FlowError)).
Proof.
  assert (Hgen : forall (E : run h
             = (creds <- generate pickle_dumps client_secret_file scope ;;
                build api_name api_version creds) h),
             exists r h', run h = (r, h') /\
               ((exists c, taken h h'
                           = [flow; Dump (pickle_dumps c); Build (handle c)] /\
                           token_pickle h' = Some (pickle_dumps c) /\
                           r = Ok (handle c)) \/
                (taken h h' = [flow] /\ token_pickle h' = token_pickle h /\
                 r = Raise FlowError))).
  { intros E. rewrite E, generate_then_build.
    destruct (consent h) as [c|]; do 2 eexists; (split; [reflexivity|]).
    - left. exists c. split; [now apply taken_events|]. now split.
    - right. split; [now apply taken_events|]. now split. }
  destruct (token_pickle h) as [data|] eqn:Hfile.
  - destruct (pickle_loads data) as [old|] eqn:Hload.
    + destruct (valid (utcnow h) old) eqn:Hvalid.
      * exists (Ok (handle old)), (note (Build (handle old)) h).
        split.
        { unfold authorization, bind, load_token.
          rewrite Hfile, Hload. cbn iota beta. now rewrite Hvalid. }
        right; left. exists old. split; [now apply taken_events|].
        now split.
      * destruct (expired (utcnow h) old && truthy (refresh_token old))
          eqn:Hfresh.
        { apply andb_true_iff in Hfresh. destruct Hfresh as [Hexp Hrt].
          rewrite (authorization_refresh_branch _ _ _ _ _ _ _ _ _
                     Hfile Hload Hexp Hrt).
          unfold bind, refresh, build.
          destruct (refresh_grant h) as [[access_token until]|];
            do 2 eexists; (split; [reflexivity|]).
          - right; right; left. do 2 eexists.
            split; [apply taken_events; simpl; now rewrite <- app_assoc|].
            now split.
          - right; right; right; left. exists old.
            split; [now apply taken_events|]. now split. }
        destruct (Hgen (authorization_unusable _ _ _ _ _ _ _ _ _
                          Hfile Hload Hvalid Hfresh))
          as [r [h' [E [H|H]]]]; exists r, h'; (split; [exact E|]).
        { right; right; right; right; left. exact H. }
        { right; right; right; right; right. exact H. }
    + exists (Raise UnpicklingError), h. split.
      { unfold authorization, bind, load_token. now rewrite Hfile, Hload. }
      left. split; [apply taken_events; now rewrite app_nil_r|]. now split.
  - destruct (Hgen (authorization_without_file _ _ _ _ _ _ _ Hfile))
      as [r [h' [E [H|H]]]]; exists r, h'; (split; [exact E|]).
    + right; right; right; right; left.
      destruct H as [c [Ht [Hp Hr]]]. exists c. now repeat split.
    + right; right; right; right; right.
      destruct H as [Ht [Hp Hr]]. repeat split; trivial; congruence.
Qed.

End AuthorizationOutcomes.

(** X18. In one call the credential is obtained at most once: the
    refresh and the interactive flow are never both run, neither is run
    twice, and the token file is written only after the flow. *)
Theorem authorization_single_attempt
    (pickle_loads : list Byte.byte -> option Credentials)
    (pickle_dumps : Credentials -> list Byte.byte)
    (client_secret_file api_name api_version : string) (scope : list string)
    (h : Host) :
  let steps :=
    taken h (snd (authorization pickle_loads pickle_dumps
                    client_secret_file api_name api_version scope h)) in
  count is_refresh steps + count is_flow steps <= 1 /\
  count is_dump steps <= count is_flow steps.
Proof.
  destruct (authorization_cases pickle_loads pickle_dumps
              client_secret_file api_name api_version scope h)
    as [r [h' [E H]]].
  rewrite E. cbn [snd].
  destruct H as [[Ht _]|[[c [Ht _]]|[[c [c' [Ht _]]]|[[c [Ht _]]|
                 [[c [Ht _]]|[Ht _]]]]]];
    rewrite Ht; unfold count; simpl; lia.
Qed.

(** X19. After a call the token file either holds what it held, or it
    holds the credential of the handle that the call returned. *)
Theorem token_file_untouched_or_current
    (pickle_loads : list Byte.byte -> option Credentials)
    (pickle_dumps : Credentials -> list Byte.byte)
    (client_secret_file api_name api_version : string) (scope : list string)
    (h : Host) :
  let (r, h') := authorization pickle_loads pickle_dumps
                   client_secret_file api_name api_version scope h in
  token_pickle h' = token_pickle h \/
  exists service,
    r = Ok service /\
    token_pickle h' = Some (pickle_dumps (credentials service)).
Proof.
  destruct (authorization_cases pickle_loads pickle_dumps
              client_secret_file api_name api_version scope h)
    as [r [h' [E H]]].
  rewrite E.
  destruct H as [[_ [Hp _]]|[[c [_ [Hp _]]]|[[c [c' [_ [Hp _]]]]|
                 [[c [_ [Hp _]]]|[[c [_ [Hp Hr]]]|[_ [Hp _]]]]]]];
    try (now left).
  right. eexists. split; [exact Hr | exact Hp].
Qed.

(** X20. The refreshed credential is not kept between calls: a second
    call on the host the first one leaves finds the same stored
    credential and refreshes it again. *)
Theorem refresh_repeated_on_next_call
    (pickle_loads : list Byte.byte -> option Credentials)
    (pickle_dumps : Credentials -> list Byte.byte)
    (client_secret_file api_name api_version : string) (scope : list string)
    (h : Host) (data : list Byte.byte) (creds : Credentials)
    (access_token : string) (until : Z) :
  token_pickle h = Some data ->
  pickle_loads data = Some creds ->
  expired (utcnow h) creds = true ->
  truthy (refresh_token creds) = true ->
  refresh_grant h = Some (access_token, until) ->
  exists service h1 h2,
    authorization pickle_loads pickle_dumps
                  client_secret_file api_name api_version scope h
    = (Ok service, h1) /\
    authorization pickle_loads pickle_dumps
                  client_secret_file api_name api_version scope h1
    = (Ok service, h2) /\
    taken h1 h2 = [Refresh creds; Build service].
Proof.
  intros Hfile Hload Hexp Hrt Hgrant.
  set (service := mkResource api_name api_version
                    (mkCredentials (Some access_token) (refresh_token creds)
                                   (Some until))).
  set (h1 := note (Build service) (note (Refresh creds) h)).
  exists service, h1, (note (Build service) (note (Refresh creds) h1)).
  split; [|split].
  - rewrite (authorization_refresh_branch _ _ _ _ _ _ _ _ _
               Hfile Hload Hexp Hrt).
    unfold bind, refresh, build. now rewrite Hgrant.
  - rewrite (authorization_refresh_branch pickle_loads pickle_dumps
               client_secret_file api_name api_version scope h1 data creds
               Hfile Hload Hexp Hrt).
    unfold bind, refresh, build.
    change (refresh_grant h1) with (refresh_grant h). now rewrite Hgrant.
  - apply taken_events. simpl. now rewrite <- !app_assoc.
Qed.

(** X21. What the first call writes, the next call reads: when the
    credential obtained by the flow unpickles to itself and is valid,
    a second call returns a handle bound to it with [build] as its only
    step, and leaves the token file as the first call wrote it. *)
Theorem stored_token_reused
    (pickle_loads : list Byte.byte -> option Credentials)
    (pickle_dumps : Credentials -> list Byte.byte)
    (client_secret_file api_name api_version : string) (scope : list string)
    (h : Host) (creds : Credentials) :
  token_pickle h = None ->
  consent h = Some creds ->
  pickle_loads (pickle_dumps creds) = Some creds ->
  valid (utcnow h) creds = true ->
  exists h1 h2,
    authorization pickle_loads pickle_dumps
                  client_secret_file api_name api_version scope h
    = (Ok (mkResource api_name api_version creds), h1) /\
    authorization pickle_loads pickle_dumps
                  client_secret_file api_name api_version scope h1
    = (Ok (mkResource api_name api_version creds), h2) /\
    taken h1 h2 = [Build (mkResource api_name api_version creds)] /\
    token_pickle h2 = Some (pickle_dumps creds).
Proof.
  intros Hfile Hflow Hround Hvalid.
  rewrite authorization_without_file by exact Hfile.
  rewrite generate_then_build, Hflow.
  do 2 eexists. split; [reflexivity|].
  unfold authorization, bind, load_token. simpl.
  rewrite Hround. simpl. rewrite Hvalid. simpl.
  split; [reflexivity|]. split; [|reflexivity].
  apply taken_events. reflexivity.
Qed.

(* ===================================================================== *)
(** * Further runs on the sample drives and hosts *)
(* ===================================================================== *)

Lemma upload_into_newest_folder_witness :
  exists parent,
    In (FilesCreateMedia "photo.jpg" [parent] (file_mime "photo.jpg"))
       (issued drive_ba
          (snd (upload "X" "photo.jpg" (Some "a@example.com") (Some "writer")
                       drive_ba))) /\
    match count is_folder_create
            (issued drive_ba
               (snd (upload "X" "photo.jpg" (Some "a@example.com")
                            (Some "writer") drive_ba)))
    with
    | O => exists shared_users w1,
             lookup "X" drive_ba = (Ok (Some parent, shared_users), w1)
    | S k => parent = mint drive_ba (created drive_ba + k)
    end.
Proof.
  apply (upload_into_newest_folder "X" "photo.jpg" (Some "a@example.com")
           (Some "writer") drive_ba).
  vm_compute. reflexivity.
Defined.

Lemma reconcile_counts_witness :
  exists fid' w',
    reconcile "X" (Some "a@example.com") (Some "writer") "id-X"
              [bob_reader; alice_reader; carol_writer] drive_bac
    = (Ok fid', w') /\
    count is_folder_create (issued drive_bac w')
    = count (other_role (Some "a@example.com") (Some "writer"))
            [bob_reader; alice_reader; carol_writer] /\
    count is_permission_create (issued drive_bac w')
      + count (same_share (Some "a@example.com") (Some "writer"))
              [bob_reader; alice_reader; carol_writer]
    = length [bob_reader; alice_reader; carol_writer].
Proof.
  apply (reconcile_counts "X" (Some "a@example.com") (Some "writer")
           [bob_reader; alice_reader; carol_writer] "id-X" drive_bac).
  repeat constructor; discriminate.
Defined.

Lemma lookup_drops_owner_witness :
  Forall (fun u => role u <> "owner") [alice_reader] /\
  exists f,
    In f (drive_files drive_a) /\ rf_id f = "id-X" /\
    [alice_reader]
    = filter (fun i => negb (role i =? "owner")) (rf_permissions f).
Proof.
  apply (lookup_drops_owner "X" "id-X" [alice_reader] drive_a
           (extend [FilesList folder_query None; PermissionsList "id-X"]
                   drive_a)).
  vm_compute. reflexivity.
Defined.

Lemma unshared_folder_shared_once_witness :
  exists w',
    upload "X" "track.mp3" (Some "a@example.com") (Some "reader")
           drive_unshared = (Ok tt, w') /\
    issued drive_unshared w'
    = [FilesList folder_query None; PermissionsList "id-X";
       PermissionsCreate "id-X"
         (permission_body (Some "a@example.com") (Some "reader"));
       FilesCreateMedia "track.mp3" ["id-X"] "audio / mpeg"].
Proof.
  apply (unshared_folder_shared_once "X" "track.mp3" "id-X"
           (Some "a@example.com") (Some "reader") drive_unshared
           (extend [FilesList folder_query None; PermissionsList "id-X"]
                   drive_unshared)).
  - vm_compute. reflexivity.
  - discriminate.
Defined.

Lemma upload_stops_at_missing_address_witness :
  exists w',
    upload "X" "photo.jpg" (Some "a@example.com") (Some "writer")
           drive_b_anyone_a
    = (Raise (KeyError "emailAddress"), w') /\
    issued drive_b_anyone_a w'
    = [FilesList folder_query None; PermissionsList "id-X";
       PermissionsCreate "id-X"
         (permission_body (Some "a@example.com") (Some "writer"))].
Proof.
  apply (upload_stops_at_missing_address "X" "photo.jpg" "id-X"
           (Some "a@example.com") (Some "writer")
           [bob_reader] [alice_reader] anyone_reader drive_b_anyone_a
           (extend [FilesList folder_query None; PermissionsList "id-X"]
                   drive_b_anyone_a)).
  - vm_compute. reflexivity.
  - discriminate.
  - repeat constructor. exists "b@example.com". now split.
  - reflexivity.
Defined.

Lemma fork_name_on_whole_second_witness :
  issued drive_on_whole_second
         (snd (reconcile_entry "X" (Some "a@example.com") (Some "writer")
                               "id-X" alice_reader drive_on_whole_second))
  = [FilesCreate "X 2021-03-07 1" mime;
     PermissionsCreate "new-000"
       (permission_body (Some "a@example.com") (Some "writer"))].
Proof.
  apply (fork_name_on_whole_second "X" (Some "a@example.com") (Some "writer")
           "id-X" "a@example.com" alice_reader drive_on_whole_second);
    reflexivity.
Defined.

Lemma first_run_stores_token_witness :
  exists h',
    sample_authorization new_host
    = (Ok (mkResource "drive" "v3" old_credentials), h') /\
    token_pickle h' = Some (sample_dumps old_credentials) /\
    taken new_host h'
    = [RunLocalServer "client_secret.json" sample_scope;
       Dump (sample_dumps old_credentials);
       Build (mkResource "drive" "v3" old_credentials)].
Proof.
  apply (first_run_stores_token sample_loads sample_dumps
           "client_secret.json" "drive" "v3" sample_scope
           new_host old_credentials);
    reflexivity.
Defined.

Lemma unusable_token_replaced_witness :
  exists h',
    authorization plain_loads sample_dumps
                  "client_secret.json" "drive" "v3" sample_scope revoked_host
    = (Ok (mkResource "drive" "v3" fresh_credentials), h') /\
    token_pickle h' = Some (sample_dumps fresh_credentials) /\
    taken revoked_host h'
    = [RunLocalServer "client_secret.json" sample_scope;
       Dump (sample_dumps fresh_credentials);
       Build (mkResource "drive" "v3" fresh_credentials)].
Proof.
  apply (unusable_token_replaced plain_loads sample_dumps
           "client_secret.json" "drive" "v3" sample_scope
           revoked_host (list_byte_of_string "old")
           (mkCredentials (Some "old") None (Some 1000%Z)) fresh_credentials);
    reflexivity.
Defined.

Lemma failed_flow_is_raised_witness :
  sample_authorization silent_host
  = (Raise FlowError,
     note (RunLocalServer "client_secret.json" sample_scope) silent_host).
Proof.
  apply (failed_flow_is_raised sample_loads sample_dumps
           "client_secret.json" "drive" "v3" sample_scope silent_host).
  - left. reflexivity.
  - reflexivity.
Defined.

Lemma corrupt_token_is_raised_witness :
  authorization no_loads sample_dumps
                "client_secret.json" "drive" "v3" sample_scope valid_host
  = (Raise UnpicklingError, valid_host).
Proof.
  apply (corrupt_token_is_raised no_loads sample_dumps
           "client_secret.json" "drive" "v3" sample_scope
           valid_host (list_byte_of_string "old"));
    reflexivity.
Defined.

Lemma refresh_repeated_on_next_call_witness :
  exists service h1 h2,
    sample_authorization stale_host = (Ok service, h1) /\
    sample_authorization h1 = (Ok service, h2) /\
    taken h1 h2 = [Refresh old_credentials; Build service].
Proof.
  apply (refresh_repeated_on_next_call sample_loads sample_dumps
           "client_secret.json" "drive" "v3" sample_scope
           stale_host (list_byte_of_string "old") old_credentials
           "new" 5600%Z);
    reflexivity.
Defined.

Lemma stored_token_reused_witness :
  exists h1 h2,
    sample_authorization new_host
    = (Ok (mkResource "drive" "v3" old_credentials), h1) /\
    sample_authorization h1
    = (Ok (mkResource "drive" "v3" old_credentials), h2) /\
    taken h1 h2 = [Build (mkResource "drive" "v3" old_credentials)] /\
    token_pickle h2 = Some (sample_dumps old_credentials).
Proof.
  apply (stored_token_reused sample_loads sample_dumps
           "client_secret.json" "drive" "v3" sample_scope
           new_host old_credentials);
    reflexivity.
Defined.

(* ===================================================================== *)
(** * The test scripts *)
(* ===================================================================== *)

(** X22. On a drive without a folder of the given name, [upload] asked
    to share with the address and role of the test script sends, after
    its listing, the very requests that the test script's
    [create_folder] followed by [upload_file] send: the folder, the
    reader grant on it, and the file into it. *)
Theorem upload_agrees_with_test_script
    (name file_name : string) (m : Machine) :
  (forall f, In f (drive_files (drive m)) -> rf_mimeType f = mime ->
             rf_name f <> name) ->
  exists w1 m2,
    upload name file_name (Some "mikolaj.telec@gmail.com") (Some "reader")
           (drive m) = (Ok tt, w1) /\
    (dir <- UploadTest.create_folder name ;;
     UploadTest.upload_file file_name (file_mime file_name) dir) m
    = (Ok tt, m2) /\
    issued (drive m) w1
    = FilesList folder_query None :: issued (drive m) (drive m2) /\
    stdout m2 = (stdout m ++ ["Folder created!"; "Upload finished!"])%list /\
    host m2 = host m.
Proof.
  intros Habsent.
  rewrite (upload_absent _ _ _ _ _ (lookup_absent name (drive m) Habsent)).
  unfold create_folder, bind, files_create. cbn [extend mint created].
  simpl truthy. cbn [andb].
  do 2 eexists. split; [reflexivity|].
  split; [reflexivity|]. cbn [drive stdout host].
  split; [|split; [now rewrite <- app_assoc | reflexivity]].
  rewrite (issued_log (drive m) _
             [FilesList folder_query None; FilesCreate name mime;
              PermissionsCreate (mint (drive m) (created (drive m)))
                (permission_body (Some "mikolaj.telec@gmail.com")
                                 (Some "reader"));
              FilesCreateMedia file_name [mint (drive m) (created (drive m))]
                               (file_mime file_name)])
    by (simpl; now rewrite <- !app_assoc).
  f_equal. symmetry. apply issued_log. simpl. now rewrite <- !app_assoc.
Qed.

Section ScriptOutput.

Variable pickle_loads : list Byte.byte -> option Credentials.
Variable pickle_dumps : Credentials -> list Byte.byte.

Lemma print_each_lines (items : list FileEntry) (m : Machine) :
  OAuth2Test.print_each items m
  = (Ok tt,
     mkMachine (host m) (drive m)
       (stdout m
        ++ map (fun item =>
                  (entry_name item ++ "  ::::   " ++ entry_id item)%string)
               items)%list).
Proof.
  revert m. induction items as [|item rest IH]; intros m; simpl.
  - unfold ret. destruct m. simpl. now rewrite app_nil_r.
  - unfold bind, print. rewrite IH. simpl. now rewrite <- app_assoc.
Qed.

(** When the credential is obtained, the drive has not been touched,
    and the refresh has been announced exactly when it was made. *)
Lemma obtain_credentials_output (m m1 : Machine) (creds : Credentials) :
  OAuth2Test.obtain_credentials pickle_loads pickle_dumps m = (Ok creds, m1) ->
  drive m1 = drive m /\
  exists steps,
    events (host m1) = (events (host m) ++ steps)%list /\
    stdout m1
    = (stdout m ++ if existsb is_refresh steps
                   then ["Credential refreshed !!!"] else [])%list.
Proof.
  assert (Hgen : forall m0,
             on_host (generate pickle_dumps "credentials.json"
                               OAuth2Test.SCOPES) m0 = (Ok creds, m1) ->
             drive m1 = drive m0 /\
             exists steps,
               events (host m1) = (events (host m0) ++ steps)%list /\
               stdout m1
               = (stdout m0 ++ if existsb is_refresh steps
                               then ["Credential refreshed !!!"] else [])%list).
  { intros m0. unfold on_host, generate, bind, run_local_server, dump_token, ret.
    destruct (consent (host m0)); intros E; inversion E; subst; clear E.
    split; [reflexivity|].
    exists [RunLocalServer "credentials.json" OAuth2Test.SCOPES;
            Dump (pickle_dumps creds)].
    cbn [host stdout events note existsb is_refresh orb].
    split; [now rewrite <- app_assoc | now rewrite app_nil_r]. }
  assert (Hm : mkMachine (host m) (drive m) (stdout m) = m)
    by now destruct m.
  unfold OAuth2Test.obtain_credentials. unfold bind at 1 2.
  unfold on_host at 1, load_token.
  destruct (token_pickle (host m)) as [data|] eqn:Hfile.
  - destruct (pickle_loads data) as [old|]; [|discriminate].
    rewrite Hm. cbn iota beta.
    destruct (valid (utcnow (host m)) old); cbn [negb].
    + intros E. inversion E. subst. split; [reflexivity|].
      exists []. simpl. now rewrite !app_nil_r.
    + destruct (expired (utcnow (host m)) old && truthy (refresh_token old)).
      * unfold bind, print, on_host, refresh. cbn [host drive stdout].
        destruct (refresh_grant (host m)) as [[access_token until]|];
          intros E; inversion E; subst; clear E.
        cbn [drive stdout host events note].
        split; [reflexivity|]. exists [Refresh old]. now split.
      * intros E. apply (Hgen m E).
  - rewrite Hm. cbn iota beta. intros E. apply (Hgen m E).
Qed.

End ScriptOutput.

(** X23. When [auth2_test] ends, what it has printed is: the line
    [Credential refreshed !!!] when, and only when, the run refreshed
    the credential; then the single line [No files found] when the
    drive holds no file, and otherwise the header [Files:] followed by
    one line, name then id, for each of the first ten files of the
    drive, in the remote's order. *)
Theorem auth2_test_output
    (pickle_loads : list Byte.byte -> option Credentials)
    (pickle_dumps : Credentials -> list Byte.byte)
    (m m' : Machine) :
  OAuth2Test.auth2_test pickle_loads pickle_dumps m = (Ok tt, m') ->
  stdout m'
  = (stdout m
     ++ (if existsb is_refresh (taken (host m) (host m'))
         then ["Credential refreshed !!!"] else [])
     ++ match drive_files (drive m) with
        | [] => ["No files found"]
        | _ :: _ =>
            "Files:"
            :: map (fun f => (rf_name f ++ "  ::::   " ++ rf_id f)%string)
                   (firstn 10 (drive_files (drive m)))
        end)%list.
Proof.
  unfold OAuth2Test.auth2_test. unfold bind at 1.
  destruct (OAuth2Test.obtain_credentials pickle_loads pickle_dumps m)
    as [[creds|e] m1] eqn:E1; [|discriminate].
  destruct (obtain_credentials_output _ _ _ _ _ E1)
    as [Hdrive [steps [Hsteps Hout]]].
  unfold bind, on_host, build, on_drive, OAuth2Test.files_list_page.
  cbn [host drive stdout]. rewrite Hdrive, Hout.
  assert (Htaken : forall h',
             events h'
             = (events (host m1)
                ++ [Build (mkResource "drive" "v3" creds)])%list ->
             existsb is_refresh (taken (host m) h')
             = existsb is_refresh steps).
  { intros h' Eh. rewrite (taken_events (host m) h'
                             (steps ++ [Build (mkResource "drive" "v3" creds)])).
    - rewrite existsb_app. simpl. now rewrite orb_false_r.
    - now rewrite Eh, Hsteps, app_assoc. }
  intros E.
  destruct (drive_files (drive m)) as [|f fs].
  - simpl in E. unfold print in E. inversion E. cbn [stdout host].
    rewrite (Htaken (note (Build (mkResource "drive" "v3" creds)) (host m1))
                    eq_refl).
    now rewrite <- app_assoc.
  - cbn [firstn map OAuth2Test.print_items] in E.
    unfold bind, print in E. rewrite print_each_lines in E.
    inversion E. cbn [stdout host drive firstn map entry_of entry_name entry_id].
    rewrite (Htaken (note (Build (mkResource "drive" "v3" creds)) (host m1))
                    eq_refl).
    rewrite map_map. cbn [entry_of entry_name entry_id].
    now rewrite <- !app_assoc.
Qed.

(** X24. The refresh is announced before it is attempted: when it
    fails, [auth2_test] raises with [Credential refreshed !!!] as the
    one line printed, and nothing has been asked of the drive. *)
Theorem refresh_announced_before_it_fails
    (pickle_loads : list Byte.byte -> option Credentials)
    (pickle_dumps : Credentials -> list Byte.byte)
    (m : Machine) (data : list Byte.byte) (creds : Credentials) :
  token_pickle (host m) = Some data ->
  pickle_loads data = Some creds ->
  expired (utcnow (host m)) creds = true ->
  truthy (refresh_token creds) = true ->
  refresh_grant (host m) = None ->
  exists m',
    OAuth2Test.auth2_test pickle_loads pickle_dumps m
    = (Raise (AuthFailure RefreshError), m') /\
    stdout m' = (stdout m ++ ["Credential refreshed !!!"])%list /\
    drive m' = drive m.
Proof.
  intros Hfile Hload Hexp Hrt Hgrant.
  unfold OAuth2Test.auth2_test, OAuth2Test.obtain_credentials.
  unfold bind at 1 2 3. unfold on_host at 1, load_token.
  rewrite Hfile, Hload. cbn [host]. cbn iota beta.
  rewrite (expired_not_valid _ _ Hexp), Hexp, Hrt. cbn [negb andb].
  unfold bind, print, on_host, refresh. cbn [host drive stdout].
  rewrite Hgrant. eexists. split; [reflexivity|]. now split.
Qed.

Lemma upload_agrees_with_test_script_witness :
  exists w1 m2,
    upload "Y" "song.wav" (Some "mikolaj.telec@gmail.com") (Some "reader")
           drive_a = (Ok tt, w1) /\
    (dir <- UploadTest.create_folder "Y" ;;
     UploadTest.upload_file "song.wav" (file_mime "song.wav") dir)
      (machine_of valid_host drive_a)
    = (Ok tt, m2) /\
    issued drive_a w1 = FilesList folder_query None :: issued drive_a (drive m2)
    /\ stdout m2 = ["Folder created!"; "Upload finished!"]
    /\ host m2 = valid_host.
Proof.
  apply (upload_agrees_with_test_script "Y" "song.wav"
           (machine_of valid_host drive_a)).
  intros f [<-|[]] _. discriminate.
Defined.

Lemma auth2_test_output_witness :
  stdout (snd (OAuth2Test.auth2_test sample_loads sample_dumps
                 (machine_of stale_host drive_a)))
  = ["Credential refreshed !!!"; "Files:"; "X  ::::   id-X"] /\
  stdout (snd (OAuth2Test.auth2_test sample_loads sample_dumps
                 (machine_of valid_host drive_a)))
  = ["Files:"; "X  ::::   id-X"] /\
  stdout (snd (OAuth2Test.auth2_test sample_loads sample_dumps
                 (machine_of new_host (drive_with []))))
  = ["No files found"].
Proof.
  split; [|split].
  - rewrite (auth2_test_output sample_loads sample_dumps
               (machine_of stale_host drive_a)
               (snd (OAuth2Test.auth2_test sample_loads sample_dumps
                       (machine_of stale_host drive_a))));
      vm_compute; reflexivity.
  - rewrite (auth2_test_output sample_loads sample_dumps
               (machine_of valid_host drive_a)
               (snd (OAuth2Test.auth2_test sample_loads sample_dumps
                       (machine_of valid_host drive_a))));
      vm_compute; reflexivity.
  - rewrite (auth2_test_output sample_loads sample_dumps
               (machine_of new_host (drive_with []))
               (snd (OAuth2Test.auth2_test sample_loads sample_dumps
                       (machine_of new_host (drive_with [])))));
      vm_compute; reflexivity.
Defined.

Lemma refresh_announced_before_it_fails_witness :
  exists m',
    OAuth2Test.auth2_test sample_loads sample_dumps
                          (machine_of revoked_host drive_a)
    = (Raise (AuthFailure RefreshError), m') /\
    stdout m' = ["Credential refreshed !!!"] /\
    drive m' = drive_a.
Proof.
  apply (refresh_announced_before_it_fails sample_loads sample_dumps
           (machine_of revoked_host drive_a)
           (list_byte_of_string "old") old_credentials);
    reflexivity.
Defined.
